(** * Collaborative scheduler: the synchronization server

    A shallow embedding of [src/server/index.js] (the final revision, the
    one that knows [notes] and [manual_delete_old_events]) and of the
    message surface of [src/client/src/App.tsx].

    The server is a thin relay between socket.io sessions and one
    Firestore collection.  Handlers are written in a small
    state-and-exception monad over the server state; every [await] on the
    document store consumes one reply of the environment, so that store
    failures (network, auth, quota) are part of every statement.

    The document store is not part of the repository.  It is modelled by
    its contract: a collection is a finite map from document ids to
    documents, a document a finite map from field names to values;
    [add] creates a document under an id the store draws, [update]
    overwrites the given fields of an existing document and fails on a
    missing one, [delete] succeeds whether or not the document exists, a
    batch commits all its deletes or none, [orderBy(f)] lists the
    documents that have the field [f] by ascending value (equal values by
    document id), [where(f, '<', v)] selects the documents whose [f] is of
    the kind of [v] and sorts before it.  What the store itself would
    refuse is the environment's business: any call may fail.  Document
    paths with [/] (sub-collections) are left out.

    A handler runs to its end before the next request is taken. *)

From Stdlib Require Import ZArith.
From stdpp Require Import base decidable option list gmap strings sorting pretty.

Local Open Scope string_scope.
Local Open Scope list_scope.
Local Open Scope Z_scope.

(** ** JavaScript values carried by payloads and documents *)

(** A [Date] object: its time value in milliseconds, or the invalid date
    (time value NaN). *)
Inductive JsDate :=
| ValidDate (ms : Z)
| InvalidDate.

(** The values that occur in socket.io payloads and in stored documents.
    Numbers are restricted to integral ones and NaN. *)
Inductive JsValue :=
| JUndefined
| JNull
| JBool (b : bool)
| JNum (n : Z)
| JNaN
| JStr (s : string)
| JDate (d : JsDate).

#[global] Instance JsDate_eq_dec : EqDecision JsDate.
Proof. solve_decision. Defined.

#[global] Instance JsValue_eq_dec : EqDecision JsValue.
Proof. solve_decision. Defined.

(** An object with string keys: payloads, document data, broadcast events. *)
Abbreviation Fields := (gmap string JsValue).

(** Property read [o.k]: a missing property reads as [undefined]. *)
Definition prop (o : Fields) (k : string) : JsValue :=
  default JUndefined (o !! k).

(** ToBoolean. *)
Definition truthy (v : JsValue) : bool :=
  match v with
  | JUndefined | JNull | JNaN => false
  | JBool b => b
  | JNum n => negb (Z.eqb n 0)
  | JStr s => negb (String.eqb s "")
  | JDate _ => true
  end.

(** [v || d]. *)
Definition js_or (v d : JsValue) : JsValue :=
  if truthy v then v else d.

(** TimeClip: time values beyond 8.64e15 ms are not representable. *)
Definition timeClip (t : Z) : JsDate :=
  if Z.abs t <=? 8640000000000000 then ValidDate t else InvalidDate.

Section DateCoercion.

(** [Date.parse]: outside the ISO format its result is left to the
    engine, so the parser is a parameter; [None] is NaN. *)
Variable Date_parse : string -> option Z.

(** [new Date(v)] for one argument. *)
Definition newDate (v : JsValue) : JsDate :=
  match v with
  | JUndefined => InvalidDate
  | JNull => timeClip 0
  | JBool b => timeClip (if b then 1 else 0)
  | JNum n => timeClip n
  | JNaN => InvalidDate
  | JStr s => match Date_parse s with
              | Some t => timeClip t
              | None => InvalidDate
              end
  | JDate d => d
  end.


End DateCoercion.

(** ** The document store (Firestore collection [events]) *)

(** Document id ↦ document data. *)
Abbreviation Store := (gmap string (gmap string JsValue)).

(** The store compares values of one field with a total order: first by
    kind, then inside the kind.  NaN sorts before every number; the
    invalid date, whose time value is NaN, before every valid timestamp. *)
Definition sortKey (v : JsValue) : nat * Z * string :=
  match v with
  | JUndefined => (0%nat, 0, "")
  | JNull => (1%nat, 0, "")
  | JBool b => (2%nat, if b then 1 else 0, "")
  | JNaN => (3%nat, 0, "")
  | JNum n => (4%nat, n, "")
  | JDate InvalidDate => (5%nat, 0, "")
  | JDate (ValidDate t) => (6%nat, t, "")
  | JStr s => (7%nat, 0, s)
  end.

Definition key_lt (a b : nat * Z * string) : Prop :=
  let '(r1, z1, s1) := a in
  let '(r2, z2, s2) := b in
  (r1 < r2)%nat ∨ (r1 = r2 ∧ (z1 < z2 ∨ (z1 = z2 ∧ String.le s1 s2 ∧ s1 ≠ s2))).

Definition value_lt (v w : JsValue) : Prop := key_lt (sortKey v) (sortKey w).
Definition value_le (v w : JsValue) : Prop := value_lt v w ∨ sortKey v = sortKey w.

(** Order of the entries of [orderBy('start')]: by the [start] field
    ascending, documents with equal [start] by document id. *)
Definition entry_le (a b : string * Fields) : Prop :=
  value_lt (prop a.2 "start") (prop b.2 "start")
  ∨ (sortKey (prop a.2 "start") = sortKey (prop b.2 "start") ∧ String.le a.1 b.1).

#[global] Instance key_lt_dec : RelDecision key_lt.
Proof. intros [[r1 z1] s1] [[r2 z2] s2]. unfold key_lt. apply _. Defined.

#[global] Instance value_lt_dec : RelDecision value_lt.
Proof. intros v w. unfold value_lt. apply _. Defined.

#[global] Instance value_le_dec : RelDecision value_le.
Proof. intros v w. unfold value_le. apply _. Defined.

#[global] Instance entry_le_dec : RelDecision entry_le.
Proof. intros a b. unfold entry_le. apply _. Defined.

(** [eventsCollection.orderBy('start').get()]: the documents that have a
    [start] field, in [entry_le] order. *)
Definition orderByStart (st : Store) : list (string * Fields) :=
  merge_sort entry_le
    (map_to_list (filter (λ kv, is_Some (kv.2 !! "start")) st)).

(** The operand of [where('end', '<', cutoff)]: a document matches when
    its [end] is a timestamp that sorts strictly before the cutoff. *)
Definition endBefore (cutoff : JsDate) (doc : Fields) : Prop :=
  match doc !! "end" with
  | Some (JDate d) => value_lt (JDate d) (JDate cutoff)
  | _ => False
  end.

#[global] Instance endBefore_dec cutoff doc : Decision (endBefore cutoff doc).
Proof. unfold endBefore. destruct (doc !! "end") as [[| | | | | |]|]; apply _. Defined.

Definition whereEndBefore (cutoff : JsDate) (st : Store) : list (string * Fields) :=
  map_to_list (filter (λ kv, endBefore cutoff kv.2) st).

(** ** Server state *)

(** What a handler can throw. *)
Inductive Exn :=
| TypeError          (* property read on null/undefined, [toDate] on a non-timestamp *)
| RangeError         (* [toISOString] of the invalid date *)
| InvalidArgument    (* [doc(id)] with something that is no document path *)
| Unavailable        (* the store call failed: network, auth, quota *)
| NotFound           (* [update] of a document that does not exist *)
| AlreadyExists.     (* [add] drew an id that is taken *)

(** The messages of the protocol, server → client.  [new_event] is the
    one [App.tsx] still listens for. *)
Inductive Msg :=
| initial_events (events : list Fields)
| new_event (event : Fields)
| events_updated (events : list Fields).

(** One call of [socket.emit] or [io.emit]; the latter reaches the
    sessions connected at that moment. *)
Inductive Emit :=
| SocketEmit (socket : nat) (m : Msg)
| IoEmit (recipients : gset nat) (m : Msg).

Inductive LogLine :=
| Info (text : string)
| Failure (text : string) (error : Exn).

(** The environment's answer to one store call: the call is served (and
    [autoId] is the id the store draws, should the call be an [add]), or
    it fails. *)
Inductive Reply :=
| Served (autoId : string)
| Unreachable.

Record Server := mkServer {
  store : Store;
  sessions : gset nat;
  outbox : list Emit;
  console : list LogLine;
  oracle : list Reply;
}.

#[global] Instance Exn_eq_dec : EqDecision Exn.
Proof. solve_decision. Defined.
#[global] Instance Msg_eq_dec : EqDecision Msg.
Proof. solve_decision. Defined.
#[global] Instance Emit_eq_dec : EqDecision Emit.
Proof. solve_decision. Defined.
#[global] Instance LogLine_eq_dec : EqDecision LogLine.
Proof. solve_decision. Defined.
#[global] Instance Reply_eq_dec : EqDecision Reply.
Proof. solve_decision. Defined.

(** ** The handler monad: state and exceptions *)

Inductive Outcome (A : Type) :=
| Returned (a : A)
| Thrown (e : Exn).
Arguments Returned {A} a.
Arguments Thrown {A} e.

Definition M (A : Type) : Type := Server → Outcome A * Server.

#[global] Instance M_ret : MRet M := λ A a sv, (Returned a, sv).

#[global] Instance M_bind : MBind M := λ A B f m sv,
  match m sv with
  | (Returned a, sv') => f a sv'
  | (Thrown e, sv') => (Thrown e, sv')
  end.

Definition throw {A} (e : Exn) : M A := λ sv, (Thrown e, sv).

(** [try { body } catch (error) { handler(error) }] *)
Definition try_catch (body : M unit) (handler : Exn → M unit) : M unit := λ sv,
  match body sv with
  | (Returned tt, sv') => (Returned tt, sv')
  | (Thrown e, sv') => handler e sv'
  end.

Definition console_log (text : string) : M unit := λ sv,
  (Returned tt,
   mkServer (store sv) (sessions sv) (outbox sv) (console sv ++ [Info text]) (oracle sv)).

Definition console_error (text : string) (error : Exn) : M unit := λ sv,
  (Returned tt,
   mkServer (store sv) (sessions sv) (outbox sv) (console sv ++ [Failure text error]) (oracle sv)).

Definition socket_emit (socket : nat) (m : Msg) : M unit := λ sv,
  (Returned tt,
   mkServer (store sv) (sessions sv) (outbox sv ++ [SocketEmit socket m]) (console sv) (oracle sv)).

Definition io_emit (m : Msg) : M unit := λ sv,
  (Returned tt,
   mkServer (store sv) (sessions sv) (outbox sv ++ [IoEmit (sessions sv) m]) (console sv) (oracle sv)).

Definition get_store : M Store := λ sv, (Returned (store sv), sv).

Definition put_store (st : Store) : M unit := λ sv,
  (Returned tt, mkServer st (sessions sv) (outbox sv) (console sv) (oracle sv)).

Definition set_sessions (f : gset nat → gset nat) : M unit := λ sv,
  (Returned tt, mkServer (store sv) (f (sessions sv)) (outbox sv) (console sv) (oracle sv)).

Fixpoint mapM {A B} (f : A → M B) (l : list A) : M (list B) :=
  match l with
  | [] => mret []
  | x :: l' => y ← f x; ys ← mapM f l'; mret (y :: ys)
  end.

(** ** Store calls

    Each is one round trip: it takes the next reply of the environment
    and fails with [Unavailable] when that reply is [Unreachable] (or
    when the environment has stopped answering). *)

Definition await_store : M string := λ sv,
  match oracle sv with
  | Served autoId :: rest =>
      (Returned autoId, mkServer (store sv) (sessions sv) (outbox sv) (console sv) rest)
  | Unreachable :: rest =>
      (Thrown Unavailable, mkServer (store sv) (sessions sv) (outbox sv) (console sv) rest)
  | [] => (Thrown Unavailable, sv)
  end.

(** [eventsCollection.orderBy('start').get()] *)
Definition orderBy_start_get : M (list (string * Fields)) :=
  _ ← await_store; st ← get_store; mret (orderByStart st).

(** [eventsCollection.add(data)]: a new document under an id the store
    draws; the client's data plays no part in the choice. *)
Definition collection_add (data : Fields) : M string :=
  autoId ← await_store;
  st ← get_store;
  if decide (is_Some (st !! autoId)) then throw AlreadyExists
  else (put_store (<[autoId := data]> st);; mret autoId).

(** [eventsCollection.doc(id)]: a reference, no round trip.  The path
    has to be a non-empty string. *)
Definition collection_doc (id : JsValue) : M string :=
  match id with
  | JStr s => if decide (s = "") then throw InvalidArgument else mret s
  | _ => throw InvalidArgument
  end.

(** [ref.update(data)]: the fields of [data] overwrite those of the
    document, its other fields stay; the document has to exist. *)
Definition doc_update (ref : string) (data : Fields) : M unit :=
  _ ← await_store;
  st ← get_store;
  match st !! ref with
  | Some old => put_store (<[ref := data ∪ old]> st)
  | None => throw NotFound
  end.

(** [ref.delete()]: succeeds whether or not the document exists. *)
Definition doc_delete (ref : string) : M unit :=
  _ ← await_store;
  st ← get_store;
  put_store (delete ref st).

(** [eventsCollection.where('end', '<', cutoff).get()] *)
Definition where_end_before_get (cutoff : JsDate) : M (list (string * Fields)) :=
  _ ← await_store; st ← get_store; mret (whereEndBefore cutoff st).

(** [batch.commit()] of a batch of deletes: all of them or none. *)
Definition batch_commit (refs : list string) : M unit :=
  _ ← await_store;
  st ← get_store;
  put_store (foldr delete st refs).

(** ** The handlers of [index.js] *)

(** [ts.toDate()] on what should be a stored timestamp. *)
Definition toDate (v : JsValue) : M JsDate :=
  match v with
  | JDate d => mret d
  | _ => throw TypeError
  end.

(** [doc => ({ id: doc.id, ...doc.data(), start: ..., end: ... })] *)
Definition snapshotEvent (doc : string * Fields) : M Fields :=
  start ← toDate (prop doc.2 "start");
  end_ ← toDate (prop doc.2 "end");
  mret (<["end" := JDate end_]> (<["start" := JDate start]> (doc.2 ∪ {["id" := JStr doc.1]}))).

Definition broadcastEvents : M unit :=
  try_catch
    (console_log "Broadcasting events...";;
     snapshot ← orderBy_start_get;
     events ← mapM snapshotEvent snapshot;
     console_log "Events to broadcast:";;
     io_emit (events_updated events))
    (λ error, console_error "Error broadcasting events:" error).

(** What a client sends along with a message: an object, or nothing
    usable ([null]/[undefined]), on which every property read throws.
    Primitive payloads have none of the properties read here and behave
    as the empty object. *)
Inductive Payload :=
| PNullish
| PObject (o : Fields).

Definition payload_object (p : Payload) : M Fields :=
  match p with
  | PNullish => throw TypeError
  | PObject o => mret o
  end.

(** [d.toISOString()] *)
Definition toISOString (d : JsDate) : M unit :=
  match d with
  | ValidDate _ => mret tt
  | InvalidDate => throw RangeError
  end.

(** What reaches the server: connects, disconnects and the four client
    messages, each from a socket. *)
Inductive Request :=
| Connection (socket : nat)
| Disconnect (socket : nat)
| Add_event (socket : nat) (newEvent : Payload)
| Update_event (socket : nat) (updatedEvent : Payload)
| Delete_event (socket : nat) (eventId : JsValue)
| Manual_delete_old_events (socket : nat) (data : Payload).

Section Handlers.

Variable Date_parse : string → option Z.

(** The document [add_event] and [update_event] write. *)
Definition eventData (o : Fields) : Fields :=
  {[ "title" := prop o "title";
     "start" := JDate (newDate Date_parse (prop o "start"));
     "end" := JDate (newDate Date_parse (prop o "end"));
     "isTentative" := js_or (prop o "isTentative") (JBool false);
     "notes" := js_or (prop o "notes") (JStr "") ]}.

Definition on_connection (socket : nat) : M unit :=
  set_sessions (λ ss, {[socket]} ∪ ss);;
  console_log "a user connected";;
  try_catch
    (snapshot ← orderBy_start_get;
     events ← mapM snapshotEvent snapshot;
     socket_emit socket (initial_events events))
    (λ error, console_error "Error sending initial events:" error).

Definition on_add_event (newEvent : Payload) : M unit :=
  try_catch
    (o ← payload_object newEvent;
     _ ← collection_add (eventData o);
     console_log "New event added with ID:";;
     broadcastEvents)
    (λ error, console_error "Error adding event:" error).

Definition on_update_event (updatedEvent : Payload) : M unit :=
  try_catch
    (o ← payload_object updatedEvent;
     let id := prop o "id" in
     let data := delete "id" o in
     ref ← collection_doc id;
     doc_update ref (eventData data);;
     console_log "Event updated with ID:";;
     broadcastEvents)
    (λ error, console_error "Error updating event:" error).

Definition on_delete_event (eventId : JsValue) : M unit :=
  try_catch
    (ref ← collection_doc eventId;
     doc_delete ref;;
     console_log "Event deleted with ID:";;
     broadcastEvents)
    (λ error, console_error "Error deleting event:" error).

Definition on_disconnect (socket : nat) : M unit :=
  set_sessions (λ ss, ss ∖ {[socket]});;
  console_log "user disconnected".

Definition on_manual_delete_old_events (data : Payload) : M unit :=
  try_catch
    (o ← payload_object data;
     let beforeDate := newDate Date_parse (prop o "beforeDate") in
     toISOString beforeDate;;
     console_log "Manual request to delete events before";;
     snapshot ← where_end_before_get beforeDate;
     if decide (snapshot = []) then
       console_log "No old events to delete."
     else
       (batch_commit snapshot.*1;;
        console_log "Manually deleted old events.";;
        broadcastEvents))
    (λ error, console_error "Error during manual deletion of old events:" error).

Definition handler (r : Request) : M unit :=
  match r with
  | Connection s => on_connection s
  | Disconnect s => on_disconnect s
  | Add_event _ p => on_add_event p
  | Update_event _ p => on_update_event p
  | Delete_event _ v => on_delete_event v
  | Manual_delete_old_events _ p => on_manual_delete_old_events p
  end.

(** The server after it has finished with one request; handlers run
    one after the other. *)
Definition handle (r : Request) (sv : Server) : Server := (handler r sv).2.

Definition run (rs : list Request) (sv : Server) : Server :=
  foldl (λ sv r, handle r sv) sv rs.

End Handlers.

(** ** Notions the statements are written in *)

(** Every document the handlers write has timestamps under [start] and
    [end] and no field called [id]. *)
Definition wf_doc (d : Fields) : Prop :=
  (∃ s, d !! "start" = Some (JDate s)) ∧ (∃ e, d !! "end" = Some (JDate e)) ∧ d !! "id" = None.

Definition wf_store (st : Store) : Prop :=
  ∀ id d, st !! id = Some d → wf_doc d.

(** A stored document as clients see it: its data and its id. *)
Definition eventOf (doc : string * Fields) : Fields := <["id" := JStr doc.1]> doc.2.

Definition event_start_le (e1 e2 : Fields) : Prop :=
  value_le (prop e1 "start") (prop e2 "start").

(** [events] is the content of [st] ordered by [start] ascending: every
    document once, with its id, and no [start] before an earlier one. *)
Definition ordered_content (st : Store) (events : list Fields) : Prop :=
  StronglySorted event_start_le events
  ∧ NoDup events
  ∧ ∀ ev, ev ∈ events ↔ ∃ id doc, st !! id = Some doc ∧ ev = <["id" := JStr id]> doc.



(** [Connection] emits at most one [initial_events], to the connecting
    socket; a client message at most one [events_updated], to everybody;
    [Disconnect] nothing. *)
Definition emit_shape (r : Request) (before after : Server) : Prop :=
  match r with
  | Connection s =>
      outbox after = outbox before
      ∨ ∃ events, outbox after = outbox before ++ [SocketEmit s (initial_events events)]
  | Disconnect _ => outbox after = outbox before
  | _ =>
      outbox after = outbox before
      ∨ ∃ events, outbox after = outbox before ++ [IoEmit (sessions after) (events_updated events)]
  end.

Definition delivery (s : nat) (e : Emit) : option Msg :=
  match e with
  | SocketEmit s' m => if decide (s' = s) then Some m else None
  | IoEmit recipients m => if decide (s ∈ recipients) then Some m else None
  end.

Definition inbox (s : nat) (ob : list Emit) : list Msg := omap (delivery s) ob.


(** A date parser that knows the two instants of the scenario of the
    specification and gives up on everything else. *)
Definition scenario_parse (s : string) : option Z :=
  if String.eqb s "2024-01-01T10:00" then Some 1704103200000
  else if String.eqb s "2024-01-01T11:00" then Some 1704106800000
  else None.

Definition alice : Fields :=
  {[ "title" := JStr "Alice";
     "start" := JStr "2024-01-01T10:00";
     "end" := JStr "2024-01-01T11:00" ]}.

Definition alice_doc : Fields := eventData scenario_parse alice.

(** One stored event, two connected sessions, a store that answers. *)
Definition scenario : Server :=
  mkServer {[ "ev1" := alice_doc ]} {[ 1%nat; 2%nat ]} [] []
    [Served "ev2"; Served "ev3"; Served "ev4"].

Definition alice_b : Fields :=
  <["id" := JStr "ev1"]> (<["title" := JStr "Alice B"]> alice).


(** The scenario with a second, later event. *)
Definition bob_doc : Fields :=
  {[ "title" := JStr "Bob";
     "start" := JDate (ValidDate 1704189600000);
     "end" := JDate (ValidDate 1704193200000);
     "isTentative" := JBool true;
     "notes" := JStr "" ]}.

Definition scenario2 : Server :=
  mkServer (<["ev0" := bob_doc]> {[ "ev1" := alice_doc ]}) {[ 1%nat; 2%nat ]} [] []
    [Served "ev2"; Served "ev3"; Served "ev4"].

(** The next store call is not served. *)
Definition unserved (orc : list Reply) : Prop := ∀ a rest, orc ≠ Served a :: rest.

(** The text each handler logs in its [catch]. *)
Definition error_label (r : Request) : string :=
  match r with
  | Connection _ => "Error sending initial events:"
  | Disconnect _ => ""
  | Add_event _ _ => "Error adding event:"
  | Update_event _ _ => "Error updating event:"
  | Delete_event _ _ => "Error deleting event:"
  | Manual_delete_old_events _ _ => "Error during manual deletion of old events:"
  end.

(** The store operation of a mutation fails: the [add], [update] or
    [delete] call is not served, the [add] draws an id that is taken, the
    [update] addresses a document that does not exist; for the bulk sweep
    the query is not served or, when the query finds something to delete,
    the commit of the batch is not. *)
Definition store_operation_fails
    (Date_parse : string → option Z) (r : Request) (sv : Server) : Prop :=
  match r with
  | Add_event _ _ =>
      unserved (oracle sv)
      ∨ ∃ a rest, oracle sv = Served a :: rest ∧ is_Some (store sv !! a)
  | Update_event _ updatedEvent =>
      unserved (oracle sv)
      ∨ ∃ o ref, updatedEvent = PObject o ∧ prop o "id" = JStr ref ∧ store sv !! ref = None
  | Delete_event _ _ => unserved (oracle sv)
  | Manual_delete_old_events _ data =>
      unserved (oracle sv)
      ∨ ∃ o, data = PObject o
             ∧ whereEndBefore (newDate Date_parse (prop o "beforeDate")) (store sv) ≠ []
             ∧ unserved (tail (oracle sv))
  | Connection _ | Disconnect _ => False
  end.

Definition offline (sv : Server) (replies : list Reply) : Server :=
  mkServer (store sv) (sessions sv) (outbox sv) (console sv) replies.

Definition is_connection (r : Request) : Prop :=
  match r with Connection _ => True | _ => False end.

Definition is_initial_events (e : Emit) : Prop :=
  match e with SocketEmit _ (initial_events _) => True | _ => False end.

(** The two things the server says: [initial_events] to one socket,
    [events_updated] to everybody. *)
Definition server_message (e : Emit) : Prop :=
  match e with
  | SocketEmit _ (initial_events _) | IoEmit _ (events_updated _) => True
  | _ => False
  end.

Definition carries_new_event (e : Emit) : Prop :=
  match e with
  | SocketEmit _ (new_event _) | IoEmit _ (new_event _) => True
  | _ => False
  end.

#[global] Instance is_connection_dec r : Decision (is_connection r).
Proof. destruct r; apply _. Defined.

#[global] Instance is_initial_events_dec e : Decision (is_initial_events e).
Proof. destruct e as [s [| |]|rc m]; apply _. Defined.

(** The store calls a request may make: one fetch on a connection; the
    write and the re-fetch of a mutation; the query, the commit and the
    re-fetch of the bulk sweep. *)
Definition round_trips (r : Request) : nat :=
  match r with
  | Connection _ => 1
  | Disconnect _ => 0
  | Add_event _ _ | Update_event _ _ | Delete_event _ _ => 2
  | Manual_delete_old_events _ _ => 3
  end.

(** The requests that come as client messages. *)
Definition client_message (r : Request) : Prop :=
  match r with
  | Connection _ | Disconnect _ => False
  | _ => True
  end.

(** A document with the five event fields and no other. *)
Definition five_fields (d : Fields) : Prop :=
  dom d = {[ "title"; "start"; "end"; "isTentative"; "notes" ]}.

Definition five_fields_store (st : Store) : Prop :=
  ∀ id d, st !! id = Some d → five_fields d.

(** ** The earlier revision of [index.js]

    The first half of the file is the server before [notes] and the bulk
    sweep.  Its [broadcastEvents], its connection and its [delete_event]
    are the ones above; [add_event] and [update_event] write four fields. *)

Section EarlierRevision.

Variable Date_parse : string → option Z.

Definition eventData_rev1 (o : Fields) : Fields :=
  {[ "title" := prop o "title";
     "start" := JDate (newDate Date_parse (prop o "start"));
     "end" := JDate (newDate Date_parse (prop o "end"));
     "isTentative" := js_or (prop o "isTentative") (JBool false) ]}.

Definition on_add_event_rev1 (newEvent : Payload) : M unit :=
  try_catch
    (o ← payload_object newEvent;
     _ ← collection_add (eventData_rev1 o);
     console_log "New event added with ID:";;
     broadcastEvents)
    (λ error, console_error "Error adding event:" error).

Definition on_update_event_rev1 (updatedEvent : Payload) : M unit :=
  try_catch
    (o ← payload_object updatedEvent;
     let id := prop o "id" in
     let data := delete "id" o in
     ref ← collection_doc id;
     doc_update ref (eventData_rev1 data);;
     console_log "Event updated with ID:";;
     broadcastEvents)
    (λ error, console_error "Error updating event:" error).

End EarlierRevision.

(** ** The view model of [App.tsx] *)

(** The state of the component: the [useState] cells. *)
Record App := mkApp {
  events : list Fields;
  showAddModal : bool;
  showEditModal : bool;
  selectedSlot : option (JsDate * JsDate);
  selectedEvent : option Fields;
  eventTitle : JsValue;
  isTentative : JsValue;
  editStartTime : string;
  editEndTime : string;
}.

(** What the component sends to the server. *)
Inductive ClientEmit :=
| emit_add_event (newEvent : Fields)
| emit_update_event (updatedEvent : Fields)
| emit_delete_event (eventId : JsValue).

(** What happens to the component: the user's clicks and keystrokes,
    and the messages of the server. *)
Inductive Action :=
| SelectSlot (start end_ : JsDate)        (* click or drag on the calendar *)
| SelectEvent (event : Fields)            (* click on an event *)
| ChangeTitle (value : string)            (* the title input *)
| ChangeTentative (checked : bool)        (* the checkbox *)
| ChangeStartTime (value : string)        (* the two datetime-local inputs *)
| ChangeEndTime (value : string)
| CloseAddModal
| CloseEditModal
| AddTime (now : Z)                       (* the button; [now] is [Date.now()] *)
| UpdateTime
| DeleteTime (confirm : bool)             (* the button; [confirm] is the user's answer *)
| Receive (m : Msg).

Definition initialApp : App :=
  mkApp [] false false None None (JStr "") (JBool false) "" "".

Section AppModel.

Variable Date_parse : string → option Z.

(** [moment(v).format('YYYY-MM-DDTHH:mm')] *)
Variable moment_format : JsValue → string.

(** [event => ({ ...event, start: new Date(event.start), end: new Date(event.end) })] *)
Definition parseEvent (event : Fields) : Fields :=
  <["end" := JDate (newDate Date_parse (prop event "end"))]>
    (<["start" := JDate (newDate Date_parse (prop event "start"))]> event).

Definition setEvents (l : list Fields) (app : App) : App :=
  mkApp l (showAddModal app) (showEditModal app) (selectedSlot app) (selectedEvent app)
    (eventTitle app) (isTentative app) (editStartTime app) (editEndTime app).

(** The three [socket.on] listeners. *)
Definition on_message (m : Msg) (app : App) : App :=
  match m with
  | initial_events initialEvents => setEvents (parseEvent <$> initialEvents) app
  | new_event newEvent => setEvents (events app ++ [parseEvent newEvent]) app
  | events_updated updatedEvents => setEvents (parseEvent <$> updatedEvents) app
  end.

Definition handleSelectSlot (start end_ : JsDate) (app : App) : App :=
  mkApp (events app) true (showEditModal app) (Some (start, end_)) (selectedEvent app)
    (JStr "") (JBool false) (editStartTime app) (editEndTime app).

Definition handleSelectEvent (event : Fields) (app : App) : App :=
  mkApp (events app) (showAddModal app) true (selectedSlot app) (Some event)
    (prop event "title") (js_or (prop event "isTentative") (JBool false))
    (moment_format (prop event "start")) (moment_format (prop event "end")).

Definition handleAddEvent (now : Z) (app : App) : App * list ClientEmit :=
  match selectedSlot app with
  | Some (start, end_) =>
      if truthy (eventTitle app) then
        let newEvent : Fields :=
          <["isTentative" := isTentative app]>
            (<["title" := eventTitle app]>
               (<["end" := JDate end_]>
                  (<["start" := JDate start]> {[ "id" := JStr (pretty now) ]}))) in
        (mkApp (events app) false (showEditModal app) None (selectedEvent app)
           (JStr "") (JBool false) (editStartTime app) (editEndTime app),
         [emit_add_event newEvent])
      else (app, [])
  | None => (app, [])
  end.

Definition handleUpdateEvent (app : App) : App * list ClientEmit :=
  match selectedEvent app with
  | Some event =>
      if truthy (eventTitle app)
         && negb (String.eqb (editStartTime app) "")
         && negb (String.eqb (editEndTime app) "") then
        let updatedEvent : Fields :=
          <["end" := JDate (newDate Date_parse (JStr (editEndTime app)))]>
            (<["start" := JDate (newDate Date_parse (JStr (editStartTime app)))]>
               (<["isTentative" := isTentative app]>
                  (<["title" := eventTitle app]> event))) in
        (mkApp (events app) (showAddModal app) false (selectedSlot app) None
           (JStr "") (JBool false) "" "",
         [emit_update_event updatedEvent])
      else (app, [])
  | None => (app, [])
  end.

Definition handleDeleteEvent (confirm : bool) (app : App) : App * list ClientEmit :=
  match selectedEvent app with
  | Some event =>
      if confirm then
        (mkApp (events app) (showAddModal app) false (selectedSlot app) None
           (JStr "") (JBool false) "" "",
         [emit_delete_event (prop event "id")])
      else (app, [])
  | None => (app, [])
  end.

(** [event => ({ ...(event.isTentative && { className: 'rbc-event-tentative' }) })] *)
Definition eventPropGetter (event : Fields) : option string :=
  if truthy (prop event "isTentative") then Some "rbc-event-tentative" else None.

(** One step of the component: the new state and what it sent. *)
Definition act (a : Action) (app : App) : App * list ClientEmit :=
  match a with
  | SelectSlot start end_ => (handleSelectSlot start end_ app, [])
  | SelectEvent event => (handleSelectEvent event app, [])
  | ChangeTitle value =>
      (mkApp (events app) (showAddModal app) (showEditModal app) (selectedSlot app)
         (selectedEvent app) (JStr value) (isTentative app)
         (editStartTime app) (editEndTime app), [])
  | ChangeTentative checked =>
      (mkApp (events app) (showAddModal app) (showEditModal app) (selectedSlot app)
         (selectedEvent app) (eventTitle app) (JBool checked)
         (editStartTime app) (editEndTime app), [])
  | ChangeStartTime value =>
      (mkApp (events app) (showAddModal app) (showEditModal app) (selectedSlot app)
         (selectedEvent app) (eventTitle app) (isTentative app)
         value (editEndTime app), [])
  | ChangeEndTime value =>
      (mkApp (events app) (showAddModal app) (showEditModal app) (selectedSlot app)
         (selectedEvent app) (eventTitle app) (isTentative app)
         (editStartTime app) value, [])
  | CloseAddModal =>
      (mkApp (events app) false (showEditModal app) (selectedSlot app)
         (selectedEvent app) (eventTitle app) (isTentative app)
         (editStartTime app) (editEndTime app), [])
  | CloseEditModal =>
      (mkApp (events app) (showAddModal app) false (selectedSlot app)
         (selectedEvent app) (eventTitle app) (isTentative app)
         (editStartTime app) (editEndTime app), [])
  | AddTime now => handleAddEvent now app
  | UpdateTime => handleUpdateEvent app
  | DeleteTime confirm => handleDeleteEvent confirm app
  | Receive m => (on_message m app, [])
  end.

(** A session of the component: the state at the end and everything it
    sent, in order. *)
Fixpoint session (actions : list Action) (app : App) : App * list ClientEmit :=
  match actions with
  | [] => (app, [])
  | a :: rest =>
      let '(app1, sent1) := act a app in
      let '(app2, sent2) := session rest app1 in
      (app2, sent1 ++ sent2)
  end.

End AppModel.

(** What the modals need to render: the add modal reads the selected
    slot, the edit modal the selected event. *)
Definition modals_have_data (app : App) : Prop :=
  (showAddModal app = true → is_Some (selectedSlot app))
  ∧ (showEditModal app = true → is_Some (selectedEvent app)).

Definition is_receive (a : Action) : Prop :=
  match a with Receive _ => True | _ => False end.

#[global] Instance is_receive_dec a : Decision (is_receive a).
Proof. destruct a; apply _. Defined.

(** The list messages of the server, and the events of the [new_event]
    messages among some actions. *)
Definition is_list_message (a : Action) : Prop :=
  match a with
  | Receive (initial_events _) | Receive (events_updated _) => True
  | _ => False
  end.

Definition new_events (actions : list Action) : list Fields :=
  omap (λ a, match a with Receive (new_event e) => Some e | _ => None end) actions.

(** [moment(...).format(...)] on the two instants of the scenario;
    anything else prints as moment prints what is no date. *)
Definition scenario_format (v : JsValue) : string :=
  match v with
  | JDate (ValidDate t) =>
      if Z.eqb t 1704103200000 then "2024-01-01T10:00"
      else if Z.eqb t 1704106800000 then "2024-01-01T11:00"
      else "Invalid date"
  | _ => "Invalid date"
  end.

(** Alice's event as a client holds it after a broadcast. *)
Definition alice_shown : Fields := <["id" := JStr "ev1"]> alice_doc.

(** ** The wire

    socket.io carries a plain payload as JSON: [JSON.stringify] on the
    sending side, [JSON.parse] on the receiving one.  A property that is
    [undefined] is left out, NaN becomes [null], a [Date] goes through
    its [toJSON]: the ISO string, or [null] for the invalid date. *)

Section Wire.

(** [d.toISOString()] of a valid date, by its time value. *)
Variable toISOString : Z → string.

Definition toJSON (v : JsValue) : option JsValue :=
  match v with
  | JUndefined => None
  | JNaN => Some JNull
  | JDate (ValidDate t) => Some (JStr (toISOString t))
  | JDate InvalidDate => Some JNull
  | v => Some v
  end.

Definition wire (o : Fields) : Fields := omap toJSON o.

End Wire.

(** A date that comes back from the wire as it went: in the range of
    time values, and read back by the parser from its ISO string. *)
Definition date_round_trips
    (Date_parse : string → option Z) (toISOString : Z → string) (t : Z) : Prop :=
  Z.abs t ≤ 8640000000000000 ∧ Date_parse (toISOString t) = Some t.

(** A stored document every part of which survives the wire: valid
    [start] and [end] that round-trip, and, in the other fields, values
    that JSON carries as they are. *)
Definition survives_wire
    (Date_parse : string → option Z) (toISOString : Z → string) (doc : Fields) : Prop :=
  (∃ s, doc !! "start" = Some (JDate (ValidDate s)) ∧ date_round_trips Date_parse toISOString s)
  ∧ (∃ e, doc !! "end" = Some (JDate (ValidDate e)) ∧ date_round_trips Date_parse toISOString e)
  ∧ ∀ k v, doc !! k = Some v → k ≠ "start" → k ≠ "end" → toJSON toISOString v = Some v.

(** The ISO strings of the scenario. *)
Definition scenario_iso (t : Z) : string :=
  if Z.eqb t 1704103200000 then "2024-01-01T10:00"
  else if Z.eqb t 1704106800000 then "2024-01-01T11:00"
  else "".



(** Alice's event with a note, as a client holds it. *)
Definition alice_noted : Fields := <["notes" := JStr "bring slides"]> alice_shown.

(** ** The store's order *)

Lemma key_lt_trichotomy a b : key_lt a b ∨ a = b ∨ key_lt b a.
Proof.
  destruct a as [[r1 z1] s1], b as [[r2 z2] s2]; unfold key_lt.
  destruct (lt_eq_lt_dec r1 r2) as [[?| ->]|?]; [by left; left| |by right; right; left].
  destruct (Z.lt_trichotomy z1 z2) as [?|[ ->|?]].
  - left; right; split; [done|]; by left.
  - destruct (decide (s1 = s2)) as [->|Hne]; [by right; left|].
    destruct (total String.le s1 s2).
    + left; right; split; [done|]; right; done.
    + right; right; right; split; [done|]; right; split; [done|]; split; [done|congruence].
  - right; right; right; split; [done|]; by left.
Qed.

Lemma key_lt_trans a b c : key_lt a b → key_lt b c → key_lt a c.
Proof.
  destruct a as [[r1 z1] s1], b as [[r2 z2] s2], c as [[r3 z3] s3]; unfold key_lt.
  intros [?|[-> [?|[-> [H12 N12]]]]] [?|[<- [?|[<- [H23 N23]]]]];
    try (left; lia); try (right; split; [done|]; left; lia).
  right; split; [done|]; right; split; [done|]; split.
  - by etrans.
  - intros ->. apply N12. by apply (anti_symm String.le).
Qed.

Lemma key_lt_irrefl a : ¬ key_lt a a.
Proof.
  destruct a as [[r z] s]; unfold key_lt.
  intros [?|[_ [?|[_ [_ ?]]]]]; [lia|lia|done].
Qed.

#[global] Instance entry_le_total : Total entry_le.
Proof.
  intros a b; unfold entry_le, value_lt.
  destruct (key_lt_trichotomy (sortKey (prop a.2 "start")) (sortKey (prop b.2 "start")))
    as [?|[E|?]]; [by left; left| |by right; left].
  destruct (total String.le a.1 b.1); [left|right]; right; split; congruence.
Qed.

#[global] Instance entry_le_trans : Transitive entry_le.
Proof.
  intros a b c; unfold entry_le, value_lt.
  intros [H1|[E1 L1]] [H2|[E2 L2]].
  - left; by eapply key_lt_trans.
  - left; by rewrite <- E2.
  - left; by rewrite E1.
  - right; split; [congruence|by etrans].
Qed.

(** Timestamps are compared by their instant; the invalid date comes
    before all of them. *)
Lemma value_lt_dates d1 d2 :
  value_lt (JDate d1) (JDate d2) ↔
  match d1, d2 with
  | ValidDate t1, ValidDate t2 => t1 < t2
  | InvalidDate, ValidDate _ => True
  | _, InvalidDate => False
  end.
Proof.
  unfold value_lt, key_lt; destruct d1 as [t1|], d2 as [t2|]; simpl.
  - split; [intros [?|[_ [?|[_ [_ ?]]]]]; [lia|done|done] | intros; right; split; [done|]; by left].
  - split; [intros [?|[? _]]; lia | done].
  - split; [done | intros _; left; lia].
  - split; [intros [?|[_ [?|[_ [_ ?]]]]]; [lia|lia|done] | done].
Qed.

Lemma orderByStart_perm (st : Store) :
  orderByStart st ≡ₚ map_to_list (filter (λ kv, is_Some (kv.2 !! "start")) st).
Proof. apply merge_sort_Permutation. Qed.

Lemma orderByStart_sorted (st : Store) : StronglySorted entry_le (orderByStart st).
Proof. apply StronglySorted_merge_sort; apply _. Qed.

Lemma elem_of_orderByStart (st : Store) id doc :
  (id, doc) ∈ orderByStart st ↔ st !! id = Some doc ∧ is_Some (doc !! "start").
Proof.
  rewrite orderByStart_perm, elem_of_map_to_list, map_lookup_filter_Some. done.
Qed.

Lemma orderByStart_NoDup (st : Store) : NoDup (orderByStart st).*1.
Proof.
  rewrite orderByStart_perm. apply NoDup_fst_map_to_list.
Qed.

Lemma elem_of_whereEndBefore cutoff (st : Store) id doc :
  (id, doc) ∈ whereEndBefore cutoff st ↔ st !! id = Some doc ∧ endBefore cutoff doc.
Proof.
  unfold whereEndBefore. rewrite elem_of_map_to_list, map_lookup_filter_Some. done.
Qed.

(** ** Reading a snapshot of documents written by this server *)

Ltac unfold_monad :=
  unfold try_catch, console_log, console_error, socket_emit, io_emit, get_store,
    put_store, set_sessions, throw, mbind, M_bind, mret, M_ret in *.

Lemma snapshotEvent_wf doc sv :
  wf_doc doc.2 → snapshotEvent doc sv = (Returned (eventOf doc), sv).
Proof.
  destruct doc as [id d]; intros ([s Hs] & [e He] & Hid); simpl in *.
  unfold snapshotEvent, eventOf, prop, toDate; simpl. rewrite Hs, He; simpl.
  unfold_monad. do 2 f_equal. apply map_eq; intros k.
  destruct (decide (k = "end")) as [->|]; [by rewrite lookup_insert_eq, lookup_insert_ne, He|].
  rewrite lookup_insert_ne by done.
  destruct (decide (k = "start")) as [->|]; [by rewrite lookup_insert_eq, lookup_insert_ne, Hs|].
  rewrite lookup_insert_ne by done.
  destruct (decide (k = "id")) as [->|].
  - by rewrite lookup_insert_eq, lookup_union_r, lookup_singleton_eq.
  - rewrite lookup_insert_ne by done. rewrite lookup_union_l; [done|].
    by rewrite lookup_singleton_ne.
Qed.

Lemma mapM_snapshotEvent_wf docs sv :
  Forall (λ doc, wf_doc doc.2) docs →
  mapM snapshotEvent docs sv = (Returned (eventOf <$> docs), sv).
Proof.
  induction 1 as [|doc docs Hd _ IH]; [done|].
  simpl. unfold mbind, M_bind at 1. rewrite snapshotEvent_wf by done.
  unfold mbind, M_bind at 1. rewrite IH. done.
Qed.

Lemma orderByStart_wf (st : Store) :
  wf_store st → Forall (λ doc, wf_doc doc.2) (orderByStart st).
Proof.
  intros Hwf. apply Forall_forall; intros [id d] Hin.
  apply elem_of_orderByStart in Hin as [Hin _]. by eapply Hwf.
Qed.

(** What [broadcastEvents] does on a store of such documents: one
    round trip, then one [io.emit] of the whole list, or a logged failure. *)
Lemma broadcastEvents_wf sv :
  wf_store (store sv) →
  broadcastEvents sv =
  (Returned tt,
   match oracle sv with
   | Served _ :: rest =>
       mkServer (store sv) (sessions sv)
         (outbox sv ++ [IoEmit (sessions sv) (events_updated (eventOf <$> orderByStart (store sv)))])
         (console sv ++ [Info "Broadcasting events..."; Info "Events to broadcast:"]) rest
   | _ =>
       mkServer (store sv) (sessions sv) (outbox sv)
         (console sv ++ [Info "Broadcasting events..."; Failure "Error broadcasting events:" Unavailable])
         (tail (oracle sv))
   end).
Proof.
  intros Hwf. destruct sv as [st ss ob co orc]; simpl in *.
  unfold broadcastEvents, orderBy_start_get, await_store. unfold_monad. simpl.
  destruct orc as [|[a|] rest]; simpl; rewrite <- ?app_assoc; try done.
  rewrite mapM_snapshotEvent_wf by by apply orderByStart_wf.
  simpl. by rewrite <- app_assoc.
Qed.

Lemma snapshotEvent_state doc sv : (snapshotEvent doc sv).2 = sv.
Proof.
  unfold snapshotEvent, toDate. unfold_monad.
  by destruct (prop doc.2 "start"), (prop doc.2 "end").
Qed.

Lemma mapM_snapshotEvent_state docs sv : (mapM snapshotEvent docs sv).2 = sv.
Proof.
  induction docs as [|doc docs IH]; [done|]. simpl. unfold mbind, M_bind at 1.
  pose proof (snapshotEvent_state doc sv) as Hd.
  destruct (snapshotEvent doc sv) as [[ev|e] s1]; simpl in Hd; subst; [|done].
  unfold mbind, M_bind at 1.
  destruct (mapM snapshotEvent docs sv) as [[evs|e] s1]; simpl in IH; subst; done.
Qed.

(** Without any assumption on the documents: [broadcastEvents] never
    throws, leaves store and sessions alone, and emits nothing or one
    [events_updated] to everybody. *)
Lemma broadcastEvents_shape sv :
  ∃ sv', broadcastEvents sv = (Returned tt, sv')
    ∧ store sv' = store sv ∧ sessions sv' = sessions sv
    ∧ (outbox sv' = outbox sv
       ∨ ∃ events, outbox sv' = outbox sv ++ [IoEmit (sessions sv) (events_updated events)]).
Proof.
  destruct sv as [st ss ob co orc].
  unfold broadcastEvents, orderBy_start_get, await_store. unfold_monad. simpl.
  destruct orc as [|[a|] rest]; simpl; [by eauto 10| |by eauto 10].
  match goal with |- context [mapM snapshotEvent ?l ?s] =>
    pose proof (mapM_snapshotEvent_state l s) as Hs;
    destruct (mapM snapshotEvent l s) as [[events|e] sv1] end;
    simpl in Hs; subst; simpl; eauto 10.
Qed.

(** ** The store's content, ordered *)

Lemma prop_eventOf_start doc : prop (eventOf doc) "start" = prop doc.2 "start".
Proof. unfold prop, eventOf. by rewrite lookup_insert_ne. Qed.

Lemma ordered_content_orderByStart (st : Store) :
  wf_store st → ordered_content st (eventOf <$> orderByStart st).
Proof.
  intros Hwf. split; [|split].
  - eapply StronglySorted_fmap; [|apply orderByStart_sorted].
    intros x y. unfold event_start_le, value_le, entry_le.
    rewrite !prop_eventOf_start. intros [?|[? _]]; auto.
  - apply NoDup_fmap_2_strong.
    + intros [i1 d1] [i2 d2] H1 H2 Heq.
      apply elem_of_orderByStart in H1 as [H1 _], H2 as [H2 _].
      assert (i1 = i2) as ->.
      { apply (f_equal (λ m : Fields, m !! "id")) in Heq. unfold eventOf in Heq.
        simpl in Heq. rewrite !lookup_insert_eq in Heq. congruence. }
      congruence.
    + eapply NoDup_fmap_1, orderByStart_NoDup.
  - intros ev. rewrite list_elem_of_fmap. split.
    + intros ([id d] & -> & Hin). apply elem_of_orderByStart in Hin as [Hin _].
      by exists id, d.
    + intros (id & d & Hin & ->). exists (id, d). split; [done|].
      apply elem_of_orderByStart. split; [done|].
      destruct (Hwf _ _ Hin) as ([s ->] & _). by eexists.
Qed.

(** ** The handlers, up to the broadcast *)

Ltac unfold_store :=
  unfold collection_add, collection_doc, doc_update, doc_delete, where_end_before_get,
    batch_commit, await_store, payload_object, toISOString in *.

(** [broadcastEvents] catches what it throws, so an enclosing
    [try]/[catch] around a body that ends in it adds nothing. *)
Ltac through_broadcast :=
  match goal with
  | |- context [broadcastEvents ?s] =>
      let sv' := fresh "sv'" in
      let E := fresh "E" in
      destruct (broadcastEvents_shape s) as (sv' & E & _); rewrite E; simpl
  end.

Section HandlerEquations.

Variable Date_parse : string → option Z.

Lemma on_add_event_served o st ss ob co autoId rest :
  st !! autoId = None →
  on_add_event Date_parse (PObject o) (mkServer st ss ob co (Served autoId :: rest)) =
  broadcastEvents
    (mkServer (<[autoId := eventData Date_parse o]> st) ss ob
       (co ++ [Info "New event added with ID:"]) rest).
Proof.
  intros Hfresh. unfold on_add_event. unfold_store. unfold_monad. simpl.
  rewrite decide_False by (rewrite Hfresh; by intros [? ?]).
  by through_broadcast.
Qed.

Lemma on_update_event_served o ref old st ss ob co a rest :
  prop o "id" = JStr ref → ref ≠ "" → st !! ref = Some old →
  on_update_event Date_parse (PObject o) (mkServer st ss ob co (Served a :: rest)) =
  broadcastEvents
    (mkServer (<[ref := eventData Date_parse (delete "id" o) ∪ old]> st) ss ob
       (co ++ [Info "Event updated with ID:"]) rest).
Proof.
  intros Hid Hne Hold. unfold on_update_event. unfold_store. unfold_monad. simpl.
  rewrite Hid, decide_False by done. simpl. rewrite Hold.
  by through_broadcast.
Qed.

Lemma on_delete_event_served ref st ss ob co a rest :
  ref ≠ "" →
  on_delete_event (JStr ref) (mkServer st ss ob co (Served a :: rest)) =
  broadcastEvents
    (mkServer (delete ref st) ss ob (co ++ [Info "Event deleted with ID:"]) rest).
Proof.
  intros Hne. unfold on_delete_event. unfold_store. unfold_monad. simpl.
  rewrite decide_False by done. simpl.
  by through_broadcast.
Qed.

End HandlerEquations.

(** ** The written document *)

Section EventData.

Variable Date_parse : string → option Z.

Lemma eventData_title o : eventData Date_parse o !! "title" = Some (prop o "title").
Proof. reflexivity. Qed.

Lemma eventData_start o :
  eventData Date_parse o !! "start" = Some (JDate (newDate Date_parse (prop o "start"))).
Proof. reflexivity. Qed.

Lemma eventData_end o :
  eventData Date_parse o !! "end" = Some (JDate (newDate Date_parse (prop o "end"))).
Proof. reflexivity. Qed.

Lemma eventData_isTentative o :
  eventData Date_parse o !! "isTentative" = Some (js_or (prop o "isTentative") (JBool false)).
Proof. reflexivity. Qed.

Lemma eventData_notes o :
  eventData Date_parse o !! "notes" = Some (js_or (prop o "notes") (JStr "")).
Proof. reflexivity. Qed.

Lemma eventData_id o : eventData Date_parse o !! "id" = None.
Proof. reflexivity. Qed.

(** The five fields and nothing else. *)
Lemma eventData_dom o :
  dom (eventData Date_parse o) = {[ "title"; "start"; "end"; "isTentative"; "notes" ]}.
Proof. unfold eventData. rewrite !dom_insert_L, dom_singleton_L. set_solver. Qed.

Lemma eventData_wf o : wf_doc (eventData Date_parse o).
Proof.
  split; [|split]; [eexists; apply eventData_start|eexists; apply eventData_end|apply eventData_id].
Qed.

(** Only the five properties of the payload are read. *)
Lemma eventData_ext o1 o2 :
  (∀ k, k ∈ ["title"; "start"; "end"; "isTentative"; "notes"] → o1 !! k = o2 !! k) →
  eventData Date_parse o1 = eventData Date_parse o2.
Proof.
  intros H. unfold eventData, prop.
  rewrite !H by (repeat first [apply list_elem_of_here | apply list_elem_of_further]).
  done.
Qed.

Lemma eventData_insert_id o v : eventData Date_parse (<["id" := v]> o) = eventData Date_parse o.
Proof.
  apply eventData_ext. intros k Hk. rewrite lookup_insert_ne; [done|].
  intros <-. revert Hk. rewrite !elem_of_cons, elem_of_nil.
  intros [?|[?|[?|[?|[?|[]]]]]]; discriminate.
Qed.

Lemma eventData_delete_id o : eventData Date_parse (delete "id" o) = eventData Date_parse o.
Proof.
  apply eventData_ext. intros k Hk. rewrite lookup_delete_ne; [done|].
  intros <-. revert Hk. rewrite !elem_of_cons, elem_of_nil.
  intros [?|[?|[?|[?|[?|[]]]]]]; discriminate.
Qed.

End EventData.

(** ** Well-formedness is kept *)

Lemma wf_store_insert (st : Store) id d : wf_store st → wf_doc d → wf_store (<[id := d]> st).
Proof.
  intros Hst Hd i d'. rewrite lookup_insert. case_decide; [by intros [= <-]|by apply Hst].
Qed.

Lemma wf_store_delete (st : Store) id : wf_store st → wf_store (delete id st).
Proof. intros Hst i d' [_ H]%lookup_delete_Some. by eapply Hst. Qed.

Lemma wf_store_foldr_delete (st : Store) ids : wf_store st → wf_store (foldr delete st ids).
Proof. intros Hst. induction ids; simpl; [done|by apply wf_store_delete]. Qed.



Section CrudSteps.

Variable Date_parse : string → option Z.




End CrudSteps.

(** ** What a request can emit, whatever the store holds *)

Ltac broadcast_cases :=
  match goal with
  | |- context [broadcastEvents ?s] =>
      let E := fresh "E" in
      destruct (broadcastEvents_shape s) as (? & E & ? & ? & [?|[? ?]]);
      rewrite E; simpl in *
  end.

Ltac explore :=
  repeat (simpl;
    match goal with
    | |- context [broadcastEvents _] => broadcast_cases
    | |- context [decide ?P] => destruct (decide P)
    | |- context [match ?x with _ => _ end] => is_var x; destruct x
    | |- context [match prop ?o ?k with _ => _ end] => destruct (prop o k)
    | |- context [match ?m !! ?k with _ => _ end] => destruct (m !! k)
    | |- context [match newDate ?f ?v with _ => _ end] => destruct (newDate f v)
    end).

Lemma handle_emits Date_parse r sv : emit_shape r sv (handle Date_parse r sv).
Proof.
  destruct sv as [st ss ob co orc].
  destruct r as [s|s|s p|s p|s v|s p]; unfold handle, handler, emit_shape.
  - unfold on_connection, orderBy_start_get. unfold_store. unfold_monad.
    destruct orc as [|[a|] rest]; simpl; auto.
    match goal with |- context [mapM snapshotEvent ?l ?s] =>
      pose proof (mapM_snapshotEvent_state l s) as Hs;
      destruct (mapM snapshotEvent l s) as [[events|e] sv1] end;
      simpl in Hs; subst; simpl; eauto.
  - by simpl.
  - unfold on_add_event. unfold_store. unfold_monad.
    explore; subst; simpl; eauto; right; eexists; congruence.
  - unfold on_update_event. unfold_store. unfold_monad.
    explore; subst; simpl; eauto; right; eexists; congruence.
  - unfold on_delete_event. unfold_store. unfold_monad.
    explore; subst; simpl; eauto; right; eexists; congruence.
  - unfold on_manual_delete_old_events. unfold_store. unfold_monad.
    explore; subst; simpl; eauto; right; eexists; congruence.
Qed.

(** ** The bulk sweep *)

(** Nothing sorts before the invalid date among the timestamps. *)
Lemma endBefore_invalid doc : ¬ endBefore InvalidDate doc.
Proof.
  unfold endBefore. destruct (doc !! "end") as [[| | | | | |d]|]; simpl; try by intros [].
  intros H%value_lt_dates. by destruct d.
Qed.

(** Deleting the documents of the [where] snapshot one by one leaves
    exactly the documents that do not match. *)
Lemma lookup_sweep cutoff (st : Store) id :
  foldr delete st (whereEndBefore cutoff st).*1 !! id =
  doc ← st !! id; if decide (endBefore cutoff doc) then None else Some doc.
Proof.
  destruct (st !! id) as [doc|] eqn:Hdoc; simpl.
  - case_decide as Hm.
    + apply lookup_foldr_delete, list_elem_of_fmap. exists (id, doc). split; [done|].
      by apply elem_of_whereEndBefore.
    + rewrite lookup_foldr_delete_not_elem_of; [done|].
      intros ([id' doc'] & -> & Hin)%list_elem_of_fmap.
      apply elem_of_whereEndBefore in Hin as [Hin ?]. simpl in *. congruence.
  - apply eq_None_not_Some. intros [d Hd]. apply lookup_foldr_delete_Some in Hd as [_ Hd].
    congruence.
Qed.

Lemma whereEndBefore_nil cutoff (st : Store) :
  whereEndBefore cutoff st = [] ↔ ∀ id doc, st !! id = Some doc → ¬ endBefore cutoff doc.
Proof.
  split.
  - intros Hnil id doc Hin Hm.
    assert ((id, doc) ∈ whereEndBefore cutoff st) as Hel by by apply elem_of_whereEndBefore.
    rewrite Hnil in Hel. by apply elem_of_nil in Hel.
  - intros Hno. destruct (whereEndBefore cutoff st) as [|[id doc] l] eqn:E; [done|].
    assert ((id, doc) ∈ whereEndBefore cutoff st) as Hel by (rewrite E; apply list_elem_of_here).
    apply elem_of_whereEndBefore in Hel as [Hin Hm]. by destruct (Hno _ _ Hin).
Qed.

Section BulkEquations.

Variable Date_parse : string → option Z.

Lemma on_manual_delete_invalid o sv :
  newDate Date_parse (prop o "beforeDate") = InvalidDate →
  on_manual_delete_old_events Date_parse (PObject o) sv =
  (Returned tt,
   mkServer (store sv) (sessions sv) (outbox sv)
     (console sv ++ [Failure "Error during manual deletion of old events:" RangeError])
     (oracle sv)).
Proof.
  intros Hd. destruct sv. unfold on_manual_delete_old_events. unfold_store. unfold_monad.
  simpl. by rewrite Hd.
Qed.

Lemma on_manual_delete_none o c st ss ob co a rest :
  newDate Date_parse (prop o "beforeDate") = ValidDate c →
  whereEndBefore (ValidDate c) st = [] →
  on_manual_delete_old_events Date_parse (PObject o) (mkServer st ss ob co (Served a :: rest)) =
  (Returned tt,
   mkServer st ss ob
     (co ++ [Info "Manual request to delete events before"; Info "No old events to delete."])
     rest).
Proof.
  intros Hd Hnil. unfold on_manual_delete_old_events. unfold_store. unfold_monad.
  simpl. rewrite Hd. simpl. rewrite Hnil. simpl. by rewrite <- app_assoc.
Qed.

Lemma on_manual_delete_served o c st ss ob co a b rest :
  newDate Date_parse (prop o "beforeDate") = ValidDate c →
  whereEndBefore (ValidDate c) st ≠ [] →
  on_manual_delete_old_events Date_parse (PObject o)
    (mkServer st ss ob co (Served a :: Served b :: rest)) =
  broadcastEvents
    (mkServer (foldr delete st (whereEndBefore (ValidDate c) st).*1) ss ob
       (co ++ [Info "Manual request to delete events before";
               Info "Manually deleted old events."]) rest).
Proof.
  intros Hd Hsome. unfold on_manual_delete_old_events. unfold_store. unfold_monad.
  simpl. rewrite Hd. simpl. rewrite decide_False by done. simpl.
  rewrite <- app_assoc. simpl. by through_broadcast.
Qed.

(** The commit is all or nothing: when it fails, no document is gone. *)
Lemma on_manual_delete_commit_failed o c st ss ob co a orc :
  newDate Date_parse (prop o "beforeDate") = ValidDate c →
  whereEndBefore (ValidDate c) st ≠ [] →
  (∀ b rest, orc ≠ Served b :: rest) →
  on_manual_delete_old_events Date_parse (PObject o) (mkServer st ss ob co (Served a :: orc)) =
  (Returned tt,
   mkServer st ss ob
     (co ++ [Info "Manual request to delete events before";
             Failure "Error during manual deletion of old events:" Unavailable])
     (tail orc)).
Proof.
  intros Hd Hsome Hfail. unfold on_manual_delete_old_events. unfold_store. unfold_monad.
  simpl. rewrite Hd. simpl. rewrite decide_False by done. simpl.
  destruct orc as [|[b|] rest]; simpl; rewrite <- ?app_assoc; try done.
  by destruct (Hfail b rest).
Qed.

End BulkEquations.

(** ** Invariants of a run *)

Section RunInvariants.

Variable Date_parse : string → option Z.

Lemma connection_frame socket sv :
  let sv' := handle Date_parse (Connection socket) sv in
  store sv' = store sv ∧ sessions sv' = {[socket]} ∪ sessions sv.
Proof.
  destruct sv as [st ss ob co orc]. unfold handle, handler, on_connection, orderBy_start_get.
  unfold_store. unfold_monad. destruct orc as [|[a|] rest]; simpl; auto.
  match goal with |- context [mapM snapshotEvent ?l ?s] =>
    pose proof (mapM_snapshotEvent_state l s) as Hs;
    destruct (mapM snapshotEvent l s) as [[events|e] sv1] end;
    simpl in Hs; subst; simpl; auto.
Qed.




Lemma run_snoc rs r sv :
  run Date_parse (rs ++ [r]) sv = handle Date_parse r (run Date_parse rs sv).
Proof. unfold run. by rewrite foldl_snoc. Qed.

End RunInvariants.

(** ** What a session receives *)

Lemma inbox_snoc s ob e :
  inbox s (ob ++ [e]) = inbox s ob ++ match delivery s e with Some m => [m] | None => [] end.
Proof. unfold inbox. rewrite omap_app. simpl. by destruct (delivery s e). Qed.


(** ** A concrete run, for the examples *)

Lemma wf_store_empty : wf_store ∅.
Proof. intros id d H. by rewrite lookup_empty in H. Defined.

Lemma scenario_wf : wf_store (store scenario).
Proof.
  intros id d H. unfold scenario in H; cbn [store] in H.
  apply lookup_singleton_Some in H as [_ <-].
  split; [|split]; [by eexists|by eexists|done].
Defined.


(** ** delete_event of an id that names no event *)




(** ** add_event *)

(** C4.  When the store serves the [add] and draws the id [autoId], the
    new document sits under [autoId] and holds the title as sent,
    [start] and [end] as timestamps ([new Date] of what was sent),
    [isTentative] or [false], [notes] or the empty string ([false] and
    [""] when the payload has no such property), and no [id] field.  The
    [id] of the payload is not read: whatever it is, the server ends in
    the same state. *)
Theorem add_event_stores_coerced_event
    (Date_parse : string → option Z) (sv : Server) (socket : nat) (o : Fields)
    (autoId : string) (rest : list Reply) :
  oracle sv = Served autoId :: rest →
  store sv !! autoId = None →
  let sv' := handle Date_parse (Add_event socket (PObject o)) sv in
  ∃ doc,
    store sv' = <[autoId := doc]> (store sv)
    ∧ doc !! "title" = Some (prop o "title")
    ∧ doc !! "start" = Some (JDate (newDate Date_parse (prop o "start")))
    ∧ doc !! "end" = Some (JDate (newDate Date_parse (prop o "end")))
    ∧ doc !! "isTentative" =
        Some (if truthy (prop o "isTentative") then prop o "isTentative" else JBool false)
    ∧ doc !! "notes" = Some (if truthy (prop o "notes") then prop o "notes" else JStr "")
    ∧ (o !! "isTentative" = None → doc !! "isTentative" = Some (JBool false))
    ∧ (o !! "notes" = None → doc !! "notes" = Some (JStr ""))
    ∧ doc !! "id" = None
    ∧ ∀ v, handle Date_parse (Add_event socket (PObject (<["id" := v]> o))) sv = sv'.
Proof.
  intros Horc Hfresh. destruct sv as [st ss ob co orc]; simpl in *; subst orc.
  exists (eventData Date_parse o). unfold handle, handler.
  rewrite on_add_event_served by done.
  destruct (broadcastEvents_shape
              (mkServer (<[autoId := eventData Date_parse o]> st) ss ob
                 (co ++ [Info "New event added with ID:"]) rest)) as (sv1 & E & Hst & _).
  rewrite E. simpl in *.
  repeat split; try done.
  - rewrite eventData_isTentative. unfold prop. by intros ->.
  - rewrite eventData_notes. unfold prop. by intros ->.
  - intros v. rewrite on_add_event_served by done. by rewrite eventData_insert_id, E.
Qed.

(** In the scenario: the client sends its own [id] along, as [App.tsx]
    does; the document lands under the store's ["ev2"]. *)
Lemma add_event_stores_coerced_event_witness :
  let sv' := handle scenario_parse (Add_event 1 (PObject (<["id" := JStr "1704100000000"]> alice)))
               scenario in
  ∃ doc,
    store sv' = <["ev2" := doc]> (store scenario)
    ∧ doc !! "title" = Some (JStr "Alice")
    ∧ doc !! "start" = Some (JDate (ValidDate 1704103200000))
    ∧ doc !! "isTentative" = Some (JBool false)
    ∧ doc !! "notes" = Some (JStr "")
    ∧ doc !! "id" = None.
Proof.
  destruct (add_event_stores_coerced_event scenario_parse scenario 1%nat
              (<["id" := JStr "1704100000000"]> alice) "ev2" [Served "ev3"; Served "ev4"]
              eq_refl eq_refl)
    as (doc & Hst & Ht & Hs & _ & _ & _ & Hi & Hn & Hid & _).
  exists doc. split; [exact Hst|]. split; [exact Ht|]. split; [exact Hs|].
  split; [exact (Hi eq_refl)|]. split; [exact (Hn eq_refl)|exact Hid].
Defined.

(** ** update_event *)

Lemma update_event_served_store
    (Date_parse : string → option Z) (sv : Server) (socket : nat) (o old : Fields)
    (ref a : string) (rest : list Reply) :
  prop o "id" = JStr ref →
  ref ≠ "" →
  store sv !! ref = Some old →
  oracle sv = Served a :: rest →
  store (handle Date_parse (Update_event socket (PObject o)) sv) =
  <[ref := eventData Date_parse (delete "id" o) ∪ old]> (store sv).
Proof.
  intros Hid Hne Hold Horc. destruct sv as [st ss ob co orc]; simpl in *; subst orc.
  unfold handle, handler.
  rewrite (on_update_event_served _ _ _ _ _ _ _ _ _ _ Hid Hne Hold).
  match goal with |- context [broadcastEvents ?s] =>
    destruct (broadcastEvents_shape s) as (sv1 & E & Hst & _) end.
  rewrite E. simpl in *. by rewrite Hst.
Qed.

(** C5.  When the store serves the [update] of an existing document
    [ref], the write is the five event fields and nothing else, merged
    into the document under [ref]: the document's own [id] field (there
    is none in a document of this server) is as before, the store holds
    the same document ids, and every other document is untouched. *)
Theorem update_event_keeps_document_id
    (Date_parse : string → option Z) (sv : Server) (socket : nat) (o old : Fields)
    (ref a : string) (rest : list Reply) :
  prop o "id" = JStr ref →
  ref ≠ "" →
  store sv !! ref = Some old →
  oracle sv = Served a :: rest →
  let sv' := handle Date_parse (Update_event socket (PObject o)) sv in
  let data := eventData Date_parse (delete "id" o) in
  store sv' = <[ref := data ∪ old]> (store sv)
  ∧ dom data = {[ "title"; "start"; "end"; "isTentative"; "notes" ]}
  ∧ data !! "id" = None
  ∧ (data ∪ old) !! "id" = old !! "id"
  ∧ dom (store sv') = dom (store sv)
  ∧ ∀ other, other ≠ ref → store sv' !! other = store sv !! other.
Proof.
  intros Hid Hne Hold Horc. simpl.
  rewrite (update_event_served_store Date_parse sv socket o old ref a rest Hid Hne Hold Horc).
  split; [done|]. split; [apply eventData_dom|]. split; [apply eventData_id|].
  split; [by rewrite lookup_union_r by apply eventData_id|].
  split.
  - by apply dom_insert_lookup_L.
  - intros other Hother. by rewrite lookup_insert_ne.
Qed.

(** In the scenario: the rename of the stored event. *)
Lemma update_event_keeps_document_id_witness :
  let sv' := handle scenario_parse (Update_event 2 (PObject alice_b)) scenario in
  let data := eventData scenario_parse (delete "id" alice_b) in
  store sv' = <["ev1" := data ∪ alice_doc]> (store scenario)
  ∧ dom data = {[ "title"; "start"; "end"; "isTentative"; "notes" ]}
  ∧ data !! "id" = None
  ∧ (data ∪ alice_doc) !! "id" = alice_doc !! "id"
  ∧ dom (store sv') = dom (store scenario)
  ∧ ∀ other, other ≠ "ev1" → store sv' !! other = store scenario !! other.
Proof.
  apply (update_event_keeps_document_id scenario_parse scenario 2%nat alice_b alice_doc
           "ev1" "ev2" [Served "ev3"; Served "ev4"]).
  - reflexivity.
  - discriminate.
  - reflexivity.
  - reflexivity.
Defined.

(** C10.  When the store serves the [update] of an existing document
    [ref], all five fields of the stored document are those computed
    from the payload, whatever the document held: [isTentative] is the
    payload's value when that is truthy and [false] otherwise, [notes]
    the payload's value when truthy and the empty string otherwise.  A
    missing property reads as [undefined], which is falsy. *)
Theorem update_event_overwrites_all_fields
    (Date_parse : string → option Z) (sv : Server) (socket : nat) (o old : Fields)
    (ref a : string) (rest : list Reply) :
  prop o "id" = JStr ref →
  ref ≠ "" →
  store sv !! ref = Some old →
  oracle sv = Served a :: rest →
  let sv' := handle Date_parse (Update_event socket (PObject o)) sv in
  ∃ doc,
    store sv' !! ref = Some doc
    ∧ doc !! "title" = Some (prop o "title")
    ∧ doc !! "start" = Some (JDate (newDate Date_parse (prop o "start")))
    ∧ doc !! "end" = Some (JDate (newDate Date_parse (prop o "end")))
    ∧ doc !! "isTentative" =
        Some (if truthy (prop o "isTentative") then prop o "isTentative" else JBool false)
    ∧ doc !! "notes" = Some (if truthy (prop o "notes") then prop o "notes" else JStr "").
Proof.
  intros Hid Hne Hold Horc.
  simpl.
  rewrite (update_event_served_store Date_parse sv socket o old ref a rest Hid Hne Hold Horc).
  eexists. split; [apply lookup_insert_eq|].
  rewrite eventData_delete_id.
  repeat split; by (erewrite lookup_union_Some_l; [done|]).
Qed.

(** In the scenario: the rename carries neither [isTentative] nor
    [notes]; both are reset. *)
Lemma update_event_overwrites_all_fields_witness :
  let sv' := handle scenario_parse (Update_event 2 (PObject alice_b)) scenario in
  ∃ doc,
    store sv' !! "ev1" = Some doc
    ∧ doc !! "title" = Some (JStr "Alice B")
    ∧ doc !! "start" = Some (JDate (ValidDate 1704103200000))
    ∧ doc !! "end" = Some (JDate (ValidDate 1704106800000))
    ∧ doc !! "isTentative" = Some (JBool false)
    ∧ doc !! "notes" = Some (JStr "").
Proof.
  apply (update_event_overwrites_all_fields scenario_parse scenario 2%nat alice_b alice_doc
           "ev1" "ev2" [Served "ev3"; Served "ev4"]).
  - reflexivity.
  - discriminate.
  - reflexivity.
  - reflexivity.
Defined.

(** ** Malformed timestamps *)




(** ** manual_delete_old_events *)

(** C3.  With the cutoff [new Date(data.beforeDate)] and a store that
    serves the query: when no document has an [end] before the cutoff,
    nothing is deleted and nothing is sent.  Otherwise the matches go in
    one batch: when the commit is served, a document is in the store
    afterwards exactly when it was there and its [end] is not before the
    cutoff, with its data untouched, and one [events_updated] with the
    remaining list goes to all sessions (three round trips in all: the
    query, the commit, the re-fetch); when the commit fails, no document
    is gone and nothing is sent. *)
Theorem manual_delete_old_events_sweeps
    (Date_parse : string → option Z) (sv : Server) (socket : nat) (o : Fields)
    (a c : string) (commit : Reply) (rest : list Reply) :
  wf_store (store sv) →
  oracle sv = Served a :: commit :: Served c :: rest →
  let cutoff := newDate Date_parse (prop o "beforeDate") in
  let sv' := handle Date_parse (Manual_delete_old_events socket (PObject o)) sv in
  let matches := ∃ id doc, store sv !! id = Some doc ∧ endBefore cutoff doc in
  (¬ matches → store sv' = store sv ∧ outbox sv' = outbox sv)
  ∧ (matches →
     match commit with
     | Served _ =>
         (∀ id, store sv' !! id =
                doc ← store sv !! id; if decide (endBefore cutoff doc) then None else Some doc)
         ∧ (∃ events,
              outbox sv' = outbox sv ++ [IoEmit (sessions sv) (events_updated events)]
              ∧ ordered_content (store sv') events)
         ∧ oracle sv' = rest
     | Unreachable => store sv' = store sv ∧ outbox sv' = outbox sv
     end).
Proof.
  intros Hwf Horc cutoff sv' matches. subst sv' matches.
  destruct sv as [st ss ob co orc]; simpl in *; subst orc. unfold handle, handler.
  destruct (newDate Date_parse (prop o "beforeDate")) as [t|] eqn:Hd; subst cutoff.
  2: { rewrite on_manual_delete_invalid by done. simpl. split; [done|].
       intros (id & doc & _ & Hm). by destruct (endBefore_invalid doc). }
  destruct (decide (whereEndBefore (ValidDate t) st = [])) as [Hnil|Hsome].
  - erewrite on_manual_delete_none by done. simpl. split; [done|].
    intros (id & doc & Hin & Hm). rewrite whereEndBefore_nil in Hnil.
    by destruct (Hnil _ _ Hin).
  - split.
    { intros Hno. destruct Hsome. apply whereEndBefore_nil. intros id doc Hin Hm.
      apply Hno. by exists id, doc. }
    intros _. destruct commit as [b|].
    + erewrite on_manual_delete_served by done.
      rewrite broadcastEvents_wf by (simpl; by apply wf_store_foldr_delete). simpl.
      split; [apply lookup_sweep|]. split; [|done].
      eexists. split; [done|].
      by apply ordered_content_orderByStart, wf_store_foldr_delete.
    + erewrite on_manual_delete_commit_failed by done. done.
Qed.

Lemma scenario2_wf : wf_store (store scenario2).
Proof.
  apply wf_store_insert; [exact scenario_wf|].
  split; [|split]; [by eexists|by eexists|done].
Defined.

(** In the second scenario: a cutoff between the two events removes the
    earlier one and keeps the later. *)
Lemma manual_delete_old_events_sweeps_witness :
  let sv' := handle scenario_parse
               (Manual_delete_old_events 1 (PObject {[ "beforeDate" := JNum 1704150000000 ]}))
               scenario2 in
  store sv' !! "ev1" = None
  ∧ store sv' !! "ev0" = Some bob_doc
  ∧ oracle sv' = [].
Proof.
  destruct (manual_delete_old_events_sweeps scenario_parse scenario2 1%nat
              {[ "beforeDate" := JNum 1704150000000 ]} "ev2" "ev4" (Served "ev3") []
              scenario2_wf eq_refl) as [_ Hsweep].
  destruct Hsweep as (Hst & _ & Horc).
  - exists "ev1", alice_doc. split; [reflexivity|].
    vm_compute. right. split; [reflexivity|]. left. reflexivity.
  - split; [exact (Hst "ev1")|]. split; [exact (Hst "ev0")|exact Horc].
Defined.

(** ** Store failures *)

Ltac failure_logged :=
  simpl; rewrite <- ?app_assoc; simpl;
  repeat split; try done; do 2 eexists; split; reflexivity.

(** C6.  When the store operation of an [add_event], [update_event],
    [delete_event] or [manual_delete_old_events] fails, the handler logs
    the failure under its own label and stops: the store is as before,
    nothing is emitted, so no session, the sender included, receives
    anything. *)
Theorem store_failure_is_silent
    (Date_parse : string → option Z) (r : Request) (sv : Server) :
  store_operation_fails Date_parse r sv →
  let sv' := handle Date_parse r sv in
  store sv' = store sv
  ∧ outbox sv' = outbox sv
  ∧ (∀ s, inbox s (outbox sv') = inbox s (outbox sv))
  ∧ ∃ lines e, console sv' = console sv ++ lines
               ∧ last lines = Some (Failure (error_label r) e).
Proof.
  intros Hfail.
  enough (store (handle Date_parse r sv) = store sv
          ∧ outbox (handle Date_parse r sv) = outbox sv
          ∧ ∃ lines e, console (handle Date_parse r sv) = console sv ++ lines
                       ∧ last lines = Some (Failure (error_label r) e))
    as (Hst & Hob & Hco).
  { simpl. rewrite Hob. done. }
  destruct sv as [st ss ob co orc]. unfold handle, handler.
  destruct r as [s|s|s p|s p|s v|s p]; simpl in Hfail; try done.
  - destruct p as [|o]; [by failure_logged|].
    unfold on_add_event; unfold_store; unfold_monad.
    destruct orc as [|[a|] rest]; [by failure_logged| |by failure_logged].
    destruct Hfail as [Hfail|(a' & rest' & [= <- <-] & Htaken)]; [by destruct (Hfail a rest)|].
    simpl. rewrite decide_True by done. by failure_logged.
  - destruct p as [|o]; [by failure_logged|].
    unfold on_update_event; unfold_store; unfold_monad; simpl.
    destruct (prop o "id") as [| | | | |ref|] eqn:Hid; try by failure_logged.
    destruct (decide (ref = "")); [by failure_logged|].
    destruct orc as [|[a|] rest]; [by failure_logged| |by failure_logged].
    destruct Hfail as [Hfail|(o' & ref' & [= <-] & Hid' & Hnone)]; [by destruct (Hfail a rest)|].
    rewrite Hid in Hid'. injection Hid' as <-. simpl. rewrite Hnone. by failure_logged.
  - unfold on_delete_event; unfold_store; unfold_monad; simpl.
    destruct v as [| | | | |ref|]; try by failure_logged.
    destruct (decide (ref = "")); [by failure_logged|].
    destruct orc as [|[a|] rest]; [|by destruct (Hfail a rest)|]; by failure_logged.
  - destruct p as [|o].
    { by failure_logged. }
    destruct (newDate Date_parse (prop o "beforeDate")) as [t|] eqn:Hd.
    2: { rewrite on_manual_delete_invalid by done. by failure_logged. }
    destruct orc as [|[a|] rest].
    1, 3: unfold on_manual_delete_old_events; unfold_store; unfold_monad; simpl;
          rewrite Hd; by failure_logged.
    destruct Hfail as [Hfail|(o' & [= <-] & Hsome & Hfail)]; [by destruct (Hfail a rest)|].
    rewrite Hd in Hsome. simpl in Hfail.
    erewrite on_manual_delete_commit_failed by done. by failure_logged.
Qed.

(** In the second scenario: the query is served, the commit is not. *)
Lemma store_failure_is_silent_witness :
  let sv := offline scenario2 [Served "ev2"; Unreachable] in
  let sv' := handle scenario_parse
               (Manual_delete_old_events 1 (PObject {[ "beforeDate" := JNum 1704150000000 ]}))
               sv in
  store sv' = store sv
  ∧ outbox sv' = outbox sv
  ∧ (∀ s, inbox s (outbox sv') = inbox s (outbox sv))
  ∧ ∃ lines e, console sv' = console sv ++ lines
               ∧ last lines = Some (Failure "Error during manual deletion of old events:" e).
Proof.
  apply (store_failure_is_silent scenario_parse
           (Manual_delete_old_events 1 (PObject {[ "beforeDate" := JNum 1704150000000 ]}))
           (offline scenario2 [Served "ev2"; Unreachable])).
  right. exists {[ "beforeDate" := JNum 1704150000000 ]}.
  split; [reflexivity|]. split.
  - intros H. apply (f_equal length) in H. vm_compute in H. discriminate H.
  - intros a rest. simpl. discriminate.
Defined.

(** ** Connection *)

(** C7.  On a connection the server fetches the list once.  When the
    fetch is served, exactly one message is emitted, an [initial_events]
    with the store's content ordered by [start] ascending, to the
    connecting socket: it is the one new message in that session's inbox
    and no other session receives anything.  When the fetch fails, the
    failure is logged and nothing is emitted.  The store is not touched. *)
Theorem connection_sends_initial_events
    (Date_parse : string → option Z) (sv : Server) (socket : nat) :
  wf_store (store sv) →
  let sv' := handle Date_parse (Connection socket) sv in
  store sv' = store sv
  ∧ socket ∈ sessions sv'
  ∧ match oracle sv with
    | Served _ :: _ =>
        ∃ events,
          outbox sv' = outbox sv ++ [SocketEmit socket (initial_events events)]
          ∧ ordered_content (store sv) events
          ∧ inbox socket (outbox sv') = inbox socket (outbox sv) ++ [initial_events events]
          ∧ ∀ s, s ≠ socket → inbox s (outbox sv') = inbox s (outbox sv)
    | _ =>
        outbox sv' = outbox sv
        ∧ ∃ lines e, console sv' = console sv ++ lines
                     ∧ last lines = Some (Failure "Error sending initial events:" e)
    end.
Proof.
  intros Hwf. destruct sv as [st ss ob co orc]; simpl in *.
  unfold handle, handler, on_connection, orderBy_start_get. unfold_store. unfold_monad.
  destruct orc as [|[a|] rest]; simpl.
  - split; [done|]. split; [set_solver|]. by failure_logged.
  - rewrite mapM_snapshotEvent_wf by by apply orderByStart_wf. simpl.
    split; [done|]. split; [set_solver|].
    eexists. split; [done|]. split; [by apply ordered_content_orderByStart|]. split.
    + rewrite inbox_snoc. simpl. by rewrite decide_True.
    + intros s Hs. rewrite inbox_snoc. simpl. rewrite decide_False by done.
      by rewrite app_nil_r.
  - split; [done|]. split; [set_solver|]. by failure_logged.
Qed.

(** In the second scenario: a third session connects. *)
Lemma connection_sends_initial_events_witness :
  let sv' := handle scenario_parse (Connection 3) scenario2 in
  store sv' = store scenario2
  ∧ 3%nat ∈ sessions sv'
  ∧ ∃ events,
      outbox sv' = outbox scenario2 ++ [SocketEmit 3 (initial_events events)]
      ∧ ordered_content (store scenario2) events
      ∧ inbox 3 (outbox sv') = inbox 3 (outbox scenario2) ++ [initial_events events]
      ∧ ∀ s, s ≠ 3%nat → inbox s (outbox sv') = inbox s (outbox scenario2).
Proof.
  exact (connection_sends_initial_events scenario_parse scenario2 3%nat scenario2_wf).
Defined.

(** ** The messages of a whole run *)

Lemma server_message_not_new_event e : server_message e → ¬ carries_new_event e.
Proof. destruct e as [s [| |]|rc [| |]]; simpl; intros H1 H2; done. Qed.

(** One request: what it adds to the outbox. *)
Lemma handle_adds Date_parse r sv :
  ∃ added, outbox (handle Date_parse r sv) = outbox sv ++ added
    ∧ Forall server_message added
    ∧ (length (filter is_initial_events added) ≤ length (filter is_connection [r]))%nat.
Proof.
  pose proof (handle_emits Date_parse r sv) as H.
  assert (∀ ob : list Emit, ob = outbox sv →
            ∃ added, ob = outbox sv ++ added ∧ Forall server_message added
              ∧ (length (filter is_initial_events added) ≤ length (filter is_connection [r]))%nat)
    as Hnone.
  { intros ob ->. exists []. rewrite app_nil_r. repeat split; [by constructor|apply Nat.le_0_l]. }
  destruct r as [s|s|s p|s p|s v|s p]; unfold emit_shape in H.
  2: by apply Hnone.
  all: destruct H as [H|[events H]]; [by apply Hnone|].
  all: eexists; split; [exact H|]; split; [by repeat constructor|].
  all: by vm_compute.
Qed.

(** C9.  Whatever the requests and whatever the store answers, all the
    server emits in a run are [initial_events] messages to single
    sockets, at most one per connection, and [events_updated] messages to
    everybody: no [new_event] is ever sent. *)
Theorem new_event_is_never_emitted
    (Date_parse : string → option Z) (rs : list Request) (sv : Server) :
  ∃ added,
    outbox (run Date_parse rs sv) = outbox sv ++ added
    ∧ Forall server_message added
    ∧ Forall (λ e, ¬ carries_new_event e) added
    ∧ (length (filter is_initial_events added) ≤ length (filter is_connection rs))%nat.
Proof.
  enough (∃ added, outbox (run Date_parse rs sv) = outbox sv ++ added
            ∧ Forall server_message added
            ∧ (length (filter is_initial_events added) ≤ length (filter is_connection rs))%nat)
    as (added & Hob & Hall & Hlen).
  { exists added. repeat split; try done.
    eapply Forall_impl; [exact Hall|]. apply server_message_not_new_event. }
  revert sv. induction rs as [|r rs IH]; intros sv.
  - exists []. simpl. rewrite app_nil_r. by repeat split.
  - destruct (handle_adds Date_parse r sv) as (added1 & Hob1 & Hall1 & Hlen1).
    destruct (IH (handle Date_parse r sv)) as (added2 & Hob2 & Hall2 & Hlen2).
    exists (added1 ++ added2). split; [|split].
    + simpl. fold (run Date_parse rs (handle Date_parse r sv)).
      by rewrite Hob2, Hob1, app_assoc.
    + by apply Forall_app.
    + change (r :: rs) with ([r] ++ rs). rewrite !filter_app, !length_app. lia.
Qed.

(** ** The scenarios of the specification, run *)

(** An [add_event] on an empty store: one document under the id the
    store drew, and both sessions get the one-element list. *)
Example scenario_add_alice :
  let sv := mkServer ∅ {[ 1%nat; 2%nat ]} [] [] [Served "ev1"; Served "ev2"] in
  let sv' := handle scenario_parse (Add_event 1 (PObject alice)) sv in
  (store sv', outbox sv', inbox 2 (outbox sv')) =
  ({[ "ev1" := alice_doc ]},
   [IoEmit {[ 1%nat; 2%nat ]} (events_updated [<["id" := JStr "ev1"]> alice_doc])],
   [events_updated [<["id" := JStr "ev1"]> alice_doc]]).
Proof. apply (bool_decide_unpack _). vm_compute. exact I. Qed.

(** The [update_event] that renames her: same id, new title, [start]
    and [end] as before. *)
Example scenario_rename_alice :
  let sv' := handle scenario_parse (Update_event 2 (PObject alice_b)) scenario in
  outbox sv' =
    [IoEmit {[ 1%nat; 2%nat ]}
       (events_updated [<["id" := JStr "ev1"]> (<["title" := JStr "Alice B"]> alice_doc)])].
Proof. apply (bool_decide_unpack _). vm_compute. exact I. Qed.

(** A [delete_event] for an id nobody has: the list is the same, and it
    is sent all the same. *)
Example scenario_delete_nobody :
  let sv' := handle scenario_parse (Delete_event 1 (JStr "nobody")) scenario in
  (store sv', outbox sv') =
  (store scenario,
   [IoEmit {[ 1%nat; 2%nat ]} (events_updated [<["id" := JStr "ev1"]> alice_doc])]).
Proof. apply (bool_decide_unpack _). vm_compute. exact I. Qed.

(** The sweep with a cutoff between the two events of [scenario2]. *)
Example scenario_sweep :
  let sv' := handle scenario_parse
               (Manual_delete_old_events 1 (PObject {[ "beforeDate" := JNum 1704150000000 ]}))
               scenario2 in
  (store sv', outbox sv') =
  ({[ "ev0" := bob_doc ]},
   [IoEmit {[ 1%nat; 2%nat ]} (events_updated [<["id" := JStr "ev0"]> bob_doc])]).
Proof. apply (bool_decide_unpack _). vm_compute. exact I. Qed.

(** A malformed cutoff: [toISOString] throws before the store is asked. *)
Example scenario_sweep_garbled :
  let sv' := handle scenario_parse
               (Manual_delete_old_events 1 (PObject {[ "beforeDate" := JStr "soon" ]}))
               scenario2 in
  (store sv', outbox sv', oracle sv', console sv') =
  (store scenario2, [], oracle scenario2,
   [Failure "Error during manual deletion of old events:" RangeError]).
Proof. apply (bool_decide_unpack _). vm_compute. exact I. Qed.

(** ** Further properties of the handlers *)

(** X1.  No handler lets an exception escape: whatever the request, the
    payload and the replies of the store, the handler returns. *)
Theorem handler_never_throws (Date_parse : string → option Z) (r : Request) (sv : Server) :
  (handler Date_parse r sv).1 = Returned tt.
Proof.
  destruct sv as [st ss ob co orc].
  destruct r as [s|s|s p|s p|s v|s p]; unfold handler.
  - unfold on_connection, orderBy_start_get. unfold_store. unfold_monad.
    destruct orc as [|[a|] rest]; simpl; auto.
    by destruct (mapM snapshotEvent _ _) as [[events|e] sv1].
  - done.
  - unfold on_add_event. unfold_store. unfold_monad. by explore.
  - unfold on_update_event. unfold_store. unfold_monad. by explore.
  - unfold on_delete_event. unfold_store. unfold_monad. by explore.
  - unfold on_manual_delete_old_events. unfold_store. unfold_monad. by explore.
Qed.

(** [broadcastEvents] makes one store call, and nothing else is touched
    but outbox and console. *)
Lemma broadcastEvents_frame sv :
  ∃ sv', broadcastEvents sv = (Returned tt, sv')
    ∧ store sv' = store sv ∧ sessions sv' = sessions sv
    ∧ oracle sv' = tail (oracle sv).
Proof.
  destruct sv as [st ss ob co orc].
  unfold broadcastEvents, orderBy_start_get, await_store. unfold_monad. simpl.
  destruct orc as [|[a|] rest]; simpl; [by eauto 10| |by eauto 10].
  match goal with |- context [mapM snapshotEvent ?l ?s] =>
    pose proof (mapM_snapshotEvent_state l s) as Hs;
    destruct (mapM snapshotEvent l s) as [[events|e] sv1] end;
    simpl in Hs; subst; simpl; eauto 10.
Qed.

Ltac broadcast_frame :=
  match goal with
  | |- context [broadcastEvents ?s] =>
      let E := fresh "E" in
      let Hst := fresh "Hst" in
      let Hss := fresh "Hss" in
      let Horc := fresh "Horc" in
      destruct (broadcastEvents_frame s) as (? & E & Hst & Hss & Horc);
      rewrite E; simpl in *
  end.

Ltac explore_frame :=
  repeat (simpl;
    match goal with
    | |- context [broadcastEvents _] => broadcast_frame
    | |- context [decide ?P] => destruct (decide P)
    | |- context [match ?x with _ => _ end] => is_var x; destruct x
    | |- context [match prop ?o ?k with _ => _ end] => destruct (prop o k) eqn:?
    | |- context [match ?m !! ?k with _ => _ end] => destruct (m !! k) eqn:?
    | |- context [match newDate ?f ?v with _ => _ end] => destruct (newDate f v) eqn:?
    end).

Lemma iter_tail_drop (orc : list Reply) (k : nat) : Nat.iter k tail orc = drop k orc.
Proof.
  revert orc. induction k as [|k IH]; intros orc; [done|].
  rewrite Nat.iter_succ_r, IH. destruct orc; simpl; [by rewrite drop_nil|done].
Qed.

Lemma used_replies (orc : list Reply) (k n : nat) :
  (k ≤ n)%nat → ∃ used, orc = used ++ Nat.iter k tail orc ∧ (length used ≤ n)%nat.
Proof.
  intros Hk. exists (take k orc). split.
  - by rewrite iter_tail_drop, take_drop.
  - rewrite length_take. lia.
Qed.

(** How far a request moves along the replies of the store. *)
Lemma handle_oracle Date_parse r sv :
  let rest := oracle (handle Date_parse r sv) in
  match r with
  | Connection _ => rest = tail (oracle sv)
  | Disconnect _ => rest = oracle sv
  | Add_event _ _ | Update_event _ _ | Delete_event _ _ =>
      rest = oracle sv ∨ rest = tail (oracle sv) ∨ rest = tail (tail (oracle sv))
  | Manual_delete_old_events _ _ =>
      rest = oracle sv ∨ rest = tail (oracle sv) ∨ rest = tail (tail (oracle sv))
      ∨ rest = tail (tail (tail (oracle sv)))
  end.
Proof.
  destruct sv as [st ss ob co orc].
  destruct r as [s|s|s p|s p|s v|s p]; unfold handle, handler.
  - unfold on_connection, orderBy_start_get. unfold_store. unfold_monad.
    destruct orc as [|[a|] rest]; simpl; auto.
    match goal with |- context [mapM snapshotEvent ?l ?s] =>
      pose proof (mapM_snapshotEvent_state l s) as Hs;
      destruct (mapM snapshotEvent l s) as [[events|e] sv1] end;
      simpl in Hs; subst; simpl; eauto.
  - done.
  - unfold on_add_event. unfold_store. unfold_monad.
    explore_frame; subst; simpl; auto.
  - unfold on_update_event. unfold_store. unfold_monad.
    explore_frame; subst; simpl; auto.
  - unfold on_delete_event. unfold_store. unfold_monad.
    explore_frame; subst; simpl; auto.
  - unfold on_manual_delete_old_events. unfold_store. unfold_monad.
    explore_frame; subst; simpl; auto 6.
Qed.

(** X2.  A request makes at most [round_trips] store calls, and takes
    the replies in order: none on a disconnect, one on a connection, two
    for [add_event], [update_event] and [delete_event], three for the
    bulk sweep. *)
Theorem store_round_trips_bounded
    (Date_parse : string → option Z) (r : Request) (sv : Server) :
  ∃ used, oracle sv = used ++ oracle (handle Date_parse r sv)
          ∧ (length used ≤ round_trips r)%nat.
Proof.
  pose proof (handle_oracle Date_parse r sv) as H. cbv zeta in H.
  destruct r; cbn [round_trips];
    repeat match type of H with _ ∨ _ => destruct H as [H|H] end; rewrite H;
    first [ apply (used_replies (oracle sv) 0); lia
          | apply (used_replies (oracle sv) 1); lia
          | apply (used_replies (oracle sv) 2); lia
          | apply (used_replies (oracle sv) 3); lia ].
Qed.

(** What one request can do to the store and to the set of sessions. *)
Lemma handle_store Date_parse r sv :
  let sv' := handle Date_parse r sv in
  match r with
  | Connection _ | Disconnect _ => store sv' = store sv
  | Add_event _ newEvent =>
      store sv' = store sv
      ∨ ∃ o autoId rest,
          newEvent = PObject o ∧ oracle sv = Served autoId :: rest
          ∧ store sv !! autoId = None
          ∧ store sv' = <[autoId := eventData Date_parse o]> (store sv)
  | Update_event _ updatedEvent =>
      store sv' = store sv
      ∨ ∃ o ref old,
          updatedEvent = PObject o ∧ prop o "id" = JStr ref ∧ store sv !! ref = Some old
          ∧ store sv' = <[ref := eventData Date_parse (delete "id" o) ∪ old]> (store sv)
  | Delete_event _ eventId =>
      store sv' = store sv
      ∨ ∃ ref, eventId = JStr ref ∧ store sv' = delete ref (store sv)
  | Manual_delete_old_events _ data =>
      store sv' = store sv
      ∨ ∃ o, data = PObject o
             ∧ store sv' =
               foldr delete (store sv)
                 (whereEndBefore (newDate Date_parse (prop o "beforeDate")) (store sv)).*1
  end.
Proof.
  destruct sv as [st ss ob co orc].
  destruct r as [s|s|s p|s p|s v|s p]; unfold handle, handler.
  - by destruct (connection_frame Date_parse s (mkServer st ss ob co orc)) as [? _].
  - done.
  - unfold on_add_event. unfold_store. unfold_monad.
    explore_frame; subst; simpl; auto.
    right. do 3 eexists. repeat split; try done.
    by apply eq_None_not_Some.
  - unfold on_update_event. unfold_store. unfold_monad.
    explore_frame; subst; simpl; auto.
    right. do 3 eexists. by repeat split.
  - unfold on_delete_event. unfold_store. unfold_monad.
    explore_frame; subst; simpl; auto.
    right. by eexists.
  - unfold on_manual_delete_old_events. unfold_store. unfold_monad.
    explore_frame; subst; simpl; auto.
    right. eexists. split; [done|].
    match goal with H : newDate _ _ = _ |- _ => by rewrite H end.
Qed.

Lemma handle_sessions Date_parse r sv :
  sessions (handle Date_parse r sv) =
  match r with
  | Connection s => {[s]} ∪ sessions sv
  | Disconnect s => sessions sv ∖ {[s]}
  | _ => sessions sv
  end.
Proof.
  destruct sv as [st ss ob co orc].
  destruct r as [s|s|s p|s p|s v|s p]; unfold handle, handler.
  - by destruct (connection_frame Date_parse s (mkServer st ss ob co orc)) as [_ ?].
  - done.
  - unfold on_add_event. unfold_store. unfold_monad. explore_frame; subst; simpl; auto.
  - unfold on_update_event. unfold_store. unfold_monad. explore_frame; subst; simpl; auto.
  - unfold on_delete_event. unfold_store. unfold_monad. explore_frame; subst; simpl; auto.
  - unfold on_manual_delete_old_events. unfold_store. unfold_monad.
    explore_frame; subst; simpl; auto.
Qed.

(** X3.  An [update_event] never creates or removes a document, whatever
    the payload and whatever the store replies, and it leaves every
    document alone that the payload's [id] does not name. *)
Theorem update_event_keeps_documents
    (Date_parse : string → option Z) (socket : nat) (updatedEvent : Payload) (sv : Server) :
  let sv' := handle Date_parse (Update_event socket updatedEvent) sv in
  dom (store sv') = dom (store sv)
  ∧ ∀ id, (∀ o, updatedEvent = PObject o → prop o "id" ≠ JStr id) →
          store sv' !! id = store sv !! id.
Proof.
  pose proof (handle_store Date_parse (Update_event socket updatedEvent) sv) as H.
  cbv zeta in H |- *.
  destruct H as [-> | (o & ref & old & -> & Hid & Hold & ->)]; [done|]. split.
  - by apply dom_insert_lookup_L.
  - intros id Hother. rewrite lookup_insert_ne; [done|].
    intros ->. by apply (Hother o).
Qed.

(** X4.  An [add_event] never changes or removes a document that is
    there, and it creates at most one: under the id the store drew with
    its first reply. *)
Theorem add_event_only_adds
    (Date_parse : string → option Z) (socket : nat) (newEvent : Payload) (sv : Server) :
  let sv' := handle Date_parse (Add_event socket newEvent) sv in
  (∀ id d, store sv !! id = Some d → store sv' !! id = Some d)
  ∧ ∀ id, is_Some (store sv' !! id) →
          is_Some (store sv !! id) ∨ head (oracle sv) = Some (Served id).
Proof.
  pose proof (handle_store Date_parse (Add_event socket newEvent) sv) as H.
  cbv zeta in H |- *.
  destruct H as [-> | (o & autoId & rest & -> & Horc & Hfresh & ->)]; [by auto|]. split.
  - intros id d Hin. rewrite lookup_insert_ne; [done|]. congruence.
  - intros id. rewrite lookup_insert. case_decide as E; [|by auto].
    subst. right. by rewrite Horc.
Qed.

(** X5.  A [delete_event] only removes: what is in the store afterwards
    was there before, unchanged, and every document under another id
    than the one sent is still there. *)
Theorem delete_event_only_removes
    (Date_parse : string → option Z) (socket : nat) (eventId : JsValue) (sv : Server) :
  let sv' := handle Date_parse (Delete_event socket eventId) sv in
  store sv' ⊆ store sv
  ∧ ∀ id, eventId ≠ JStr id → store sv' !! id = store sv !! id.
Proof.
  pose proof (handle_store Date_parse (Delete_event socket eventId) sv) as H.
  cbv zeta in H |- *.
  destruct H as [-> | (ref & -> & ->)]; [done|]. split.
  - apply delete_subseteq.
  - intros id Hother. rewrite lookup_delete_ne; [done|]. congruence.
Qed.

(** X6.  The bulk sweep only removes, and never a document whose [end]
    is not before the cutoff: whatever the store replies, such a document
    is there afterwards as it was. *)
Theorem sweep_only_removes_matches
    (Date_parse : string → option Z) (socket : nat) (o : Fields) (sv : Server) :
  let cutoff := newDate Date_parse (prop o "beforeDate") in
  let sv' := handle Date_parse (Manual_delete_old_events socket (PObject o)) sv in
  store sv' ⊆ store sv
  ∧ ∀ id d, store sv !! id = Some d → ¬ endBefore cutoff d → store sv' !! id = Some d.
Proof.
  pose proof (handle_store Date_parse (Manual_delete_old_events socket (PObject o)) sv) as H.
  cbv zeta in H |- *.
  destruct H as [-> | (o' & [= <-] & ->)]; [done|]. split.
  - apply map_subseteq_spec. intros id d. rewrite lookup_sweep.
    destruct (store sv !! id) as [d'|]; simpl; [|done]. by case_decide.
  - intros id d Hin Hkeep. rewrite lookup_sweep, Hin. simpl. by rewrite decide_False.
Qed.

(** A sweep that finds nothing sends nothing, whatever the replies. *)
Lemma sweep_without_match_silent Date_parse socket o sv :
  whereEndBefore (newDate Date_parse (prop o "beforeDate")) (store sv) = [] →
  let sv' := handle Date_parse (Manual_delete_old_events socket (PObject o)) sv in
  store sv' = store sv ∧ outbox sv' = outbox sv.
Proof.
  intros Hnil. destruct sv as [st ss ob co orc]; simpl in *.
  unfold handle, handler, on_manual_delete_old_events. unfold_store. unfold_monad. simpl.
  destruct (newDate Date_parse (prop o "beforeDate")) as [t|]; simpl; [|done].
  destruct orc as [|[a|] rest]; simpl; try done.
  by rewrite Hnil.
Qed.

(** After a sweep whose query and commit were served, nothing is left
    that the same cutoff would match. *)
Lemma sweep_leaves_no_match Date_parse socket o sv a b rest :
  oracle sv = Served a :: Served b :: rest →
  whereEndBefore (newDate Date_parse (prop o "beforeDate"))
    (store (handle Date_parse (Manual_delete_old_events socket (PObject o)) sv)) = [].
Proof.
  intros Horc. destruct sv as [st ss ob co orc]; simpl in *; subst orc.
  unfold handle, handler.
  destruct (newDate Date_parse (prop o "beforeDate")) as [t|] eqn:Hd.
  2: { apply whereEndBefore_nil. intros id d _. apply endBefore_invalid. }
  destruct (decide (whereEndBefore (ValidDate t) st = [])) as [Hnil|Hsome].
  - by erewrite on_manual_delete_none.
  - erewrite on_manual_delete_served by done.
    match goal with |- context [broadcastEvents ?s] =>
      destruct (broadcastEvents_frame s) as (sv1 & E & Hst & _) end.
    rewrite E. simpl in *. rewrite Hst.
    apply whereEndBefore_nil. intros id d Hin Hm.
    rewrite lookup_sweep in Hin. destruct (st !! id) as [d'|]; simpl in Hin; [|done].
    case_decide; [done|]. congruence.
Qed.

(** X7.  Sweeping twice is sweeping once: after a sweep whose query and
    commit were served, the same request again deletes nothing and sends
    nothing, whatever the store replies to it. *)
Theorem sweep_twice_is_sweep_once
    (Date_parse : string → option Z) (socket : nat) (o : Fields) (sv : Server)
    (a b : string) (rest : list Reply) :
  oracle sv = Served a :: Served b :: rest →
  let once := handle Date_parse (Manual_delete_old_events socket (PObject o)) sv in
  let twice := handle Date_parse (Manual_delete_old_events socket (PObject o)) once in
  store twice = store once ∧ outbox twice = outbox once.
Proof.
  intros Horc once twice. subst once twice.
  apply sweep_without_match_silent. by eapply sweep_leaves_no_match.
Qed.

(** In the second scenario: the sweep of the first event, repeated. *)
Lemma sweep_twice_is_sweep_once_witness :
  let sweep := Manual_delete_old_events 1 (PObject {[ "beforeDate" := JNum 1704150000000 ]}) in
  let once := handle scenario_parse sweep scenario2 in
  let twice := handle scenario_parse sweep once in
  store twice = store once ∧ outbox twice = outbox once.
Proof.
  apply (sweep_twice_is_sweep_once scenario_parse 1%nat
           {[ "beforeDate" := JNum 1704150000000 ]} scenario2 "ev2" "ev3" [Served "ev4"]).
  reflexivity.
Defined.

(** X8.  Adding an event and deleting it again gives the store back:
    when the [add] draws a fresh id and the [delete] of that id is
    served, the store is what it was before the two requests. *)
Theorem add_then_delete_restores_store
    (Date_parse : string → option Z) (s1 s2 : nat) (o : Fields) (sv : Server)
    (autoId c : string) (fetch : Reply) (rest : list Reply) :
  oracle sv = Served autoId :: fetch :: Served c :: rest →
  store sv !! autoId = None →
  autoId ≠ "" →
  store (run Date_parse [Add_event s1 (PObject o); Delete_event s2 (JStr autoId)] sv)
  = store sv.
Proof.
  intros Horc Hfresh Hne. destruct sv as [st ss ob co orc]; simpl in *; subst orc.
  unfold handle at 2. unfold handler. rewrite on_add_event_served by done.
  match goal with |- context [broadcastEvents ?s] =>
    destruct (broadcastEvents_frame s) as ([st1 ss1 ob1 co1 orc1] & E & Hst & _ & Horc) end.
  rewrite E. simpl in *. subst.
  unfold handle, handler. rewrite on_delete_event_served by done.
  match goal with |- context [broadcastEvents ?s] =>
    destruct (broadcastEvents_frame s) as (sv2 & E2 & Hst2 & _) end.
  rewrite E2. simpl in *. rewrite Hst2. by rewrite delete_insert_eq, delete_id.
Qed.

(** In the scenario: a new event under ["ev2"], deleted at once. *)
Lemma add_then_delete_restores_store_witness :
  store (run scenario_parse [Add_event 1 (PObject alice); Delete_event 2 (JStr "ev2")] scenario)
  = store scenario.
Proof.
  apply (add_then_delete_restores_store scenario_parse 1%nat 2%nat alice scenario
           "ev2" "ev4" (Served "ev3") []).
  - reflexivity.
  - reflexivity.
  - discriminate.
Defined.

Lemma five_fields_eventData Date_parse o : five_fields (eventData Date_parse o).
Proof. apply eventData_dom. Qed.

(** Over a document with the five fields, the merge of an update is a
    replacement. *)
Lemma eventData_union_five Date_parse o old :
  five_fields old → eventData Date_parse o ∪ old = eventData Date_parse o.
Proof.
  intros Hold. apply map_eq. intros k. rewrite lookup_union.
  destruct (eventData Date_parse o !! k) as [v|] eqn:Hk; simpl.
  - by destruct (old !! k).
  - apply not_elem_of_dom in Hk. rewrite eventData_dom in Hk.
    unfold five_fields in Hold. rewrite <- Hold in Hk.
    apply not_elem_of_dom in Hk. by rewrite Hk.
Qed.

Lemma handle_five_fields Date_parse r sv :
  five_fields_store (store sv) → five_fields_store (store (handle Date_parse r sv)).
Proof.
  intros Hfive. pose proof (handle_store Date_parse r sv) as H. cbv zeta in H.
  destruct r as [s|s|s p|s p|s v|s p].
  - by rewrite H.
  - by rewrite H.
  - destruct H as [-> | (o & autoId & rest & -> & _ & _ & ->)]; [done|].
    intros id d. rewrite lookup_insert. case_decide; [|by apply Hfive].
    intros [= <-]. apply five_fields_eventData.
  - destruct H as [-> | (o & ref & old & -> & _ & Hold & ->)]; [done|].
    intros id d. rewrite lookup_insert. case_decide; [|by apply Hfive].
    intros [= <-]. rewrite eventData_union_five by by eapply Hfive.
    apply five_fields_eventData.
  - destruct H as [-> | (ref & -> & ->)]; [done|].
    intros id d [_ Hin]%lookup_delete_Some. by eapply Hfive.
  - destruct H as [-> | (o & -> & ->)]; [done|].
    intros id d [_ Hin]%lookup_foldr_delete_Some. by eapply Hfive.
Qed.

(** X9.  The server keeps its collection uniform: over a store in which
    every document has exactly the fields [title], [start], [end],
    [isTentative] and [notes] (the empty store is one), every run leaves
    such a store, whatever the requests and the replies. *)
Theorem stored_documents_have_five_fields
    (Date_parse : string → option Z) (rs : list Request) (sv : Server) :
  five_fields_store (store sv) →
  five_fields_store (store (run Date_parse rs sv)).
Proof.
  revert sv. induction rs as [|r rs IH]; intros sv Hfive; [done|].
  simpl. by apply IH, handle_five_fields.
Qed.

Lemma scenario_five_fields : five_fields_store (store scenario).
Proof.
  intros id d H. unfold scenario in H; cbn [store] in H.
  apply lookup_singleton_Some in H as [_ <-]. apply five_fields_eventData.
Defined.

(** In the scenario: an add with a stray property, a rename, a sweep. *)
Lemma stored_documents_have_five_fields_witness :
  five_fields_store
    (store (run scenario_parse
              [Add_event 1 (PObject (<["colour" := JStr "red"]> alice));
               Update_event 2 (PObject alice_b);
               Manual_delete_old_events 1 (PObject {[ "beforeDate" := JNum 0 ]})]
              scenario)).
Proof.
  apply (stored_documents_have_five_fields scenario_parse
           [Add_event 1 (PObject (<["colour" := JStr "red"]> alice));
            Update_event 2 (PObject alice_b);
            Manual_delete_old_events 1 (PObject {[ "beforeDate" := JNum 0 ]})]
           scenario).
  exact scenario_five_fields.
Defined.

(** X10.  An update of an event this server added replaces it: when an
    [add_event] with payload [o1] draws a fresh id and an [update_event]
    with payload [o2] addressed to that id is served, the store holds
    under that id exactly the document an [add_event] with [o2] would
    have written; nothing of [o1] is left. *)
Theorem add_then_update_is_add
    (Date_parse : string → option Z) (s1 s2 : nat) (o1 o2 : Fields) (sv : Server)
    (autoId c : string) (fetch : Reply) (rest : list Reply) :
  oracle sv = Served autoId :: fetch :: Served c :: rest →
  store sv !! autoId = None →
  autoId ≠ "" →
  prop o2 "id" = JStr autoId →
  store (run Date_parse [Add_event s1 (PObject o1); Update_event s2 (PObject o2)] sv)
  = <[autoId := eventData Date_parse o2]> (store sv).
Proof.
  intros Horc Hfresh Hne Hid. destruct sv as [st ss ob co orc]; simpl in *; subst orc.
  unfold handle at 2. unfold handler. rewrite on_add_event_served by done.
  match goal with |- context [broadcastEvents ?s] =>
    destruct (broadcastEvents_frame s) as ([st1 ss1 ob1 co1 orc1] & E & Hst & _ & Horc) end.
  rewrite E. simpl in *. subst.
  unfold handle, handler.
  erewrite on_update_event_served; [|done|done|apply lookup_insert_eq].
  match goal with |- context [broadcastEvents ?s] =>
    destruct (broadcastEvents_frame s) as (sv2 & E2 & Hst2 & _) end.
  rewrite E2. simpl in *. rewrite Hst2.
  rewrite insert_insert_eq, eventData_delete_id.
  by rewrite eventData_union_five by apply five_fields_eventData.
Qed.

(** In the scenario: Alice is added a second time and renamed at once. *)
Lemma add_then_update_is_add_witness :
  store (run scenario_parse
           [Add_event 1 (PObject alice);
            Update_event 2 (PObject (<["id" := JStr "ev2"]> alice_b))] scenario)
  = <["ev2" := eventData scenario_parse (<["id" := JStr "ev2"]> alice_b)]> (store scenario).
Proof.
  apply (add_then_update_is_add scenario_parse 1%nat 2%nat alice
           (<["id" := JStr "ev2"]> alice_b) scenario "ev2" "ev4" (Served "ev3") []).
  - reflexivity.
  - reflexivity.
  - discriminate.
  - reflexivity.
Defined.

Lemma handle_unconnected Date_parse r sv s :
  s ∉ sessions sv → r ≠ Connection s →
  (s ∉ sessions (handle Date_parse r sv))
  ∧ inbox s (outbox (handle Date_parse r sv)) = inbox s (outbox sv).
Proof.
  intros Hs Hr.
  pose proof (handle_emits Date_parse r sv) as He.
  pose proof (handle_sessions Date_parse r sv) as Hss.
  assert (s ∉ sessions (handle Date_parse r sv)) as Hs'.
  { rewrite Hss. destruct r as [s'| | | | |]; try done.
    - apply not_elem_of_union. split; [|done].
      apply not_elem_of_singleton. congruence.
    - apply not_elem_of_difference. by left. }
  split; [done|]. unfold emit_shape in He.
  destruct r as [s'|s'|s' p|s' p|s' v|s' p].
  - destruct He as [-> | [events ->]]; [done|].
    rewrite inbox_snoc. simpl. rewrite decide_False by congruence. by rewrite app_nil_r.
  - by rewrite He.
  - destruct He as [-> | [events ->]]; [done|].
    rewrite inbox_snoc. simpl. rewrite decide_False by done. by rewrite app_nil_r.
  - destruct He as [-> | [events ->]]; [done|].
    rewrite inbox_snoc. simpl. rewrite decide_False by done. by rewrite app_nil_r.
  - destruct He as [-> | [events ->]]; [done|].
    rewrite inbox_snoc. simpl. rewrite decide_False by done. by rewrite app_nil_r.
  - destruct He as [-> | [events ->]]; [done|].
    rewrite inbox_snoc. simpl. rewrite decide_False by done. by rewrite app_nil_r.
Qed.

(** X11.  A session that is not connected hears nothing: as long as it
    does not connect, no request of anybody, and no connection of another
    socket, puts a message in its inbox. *)
Theorem unconnected_session_hears_nothing
    (Date_parse : string → option Z) (rs : list Request) (sv : Server) (s : nat) :
  s ∉ sessions sv →
  Forall (λ r, r ≠ Connection s) rs →
  inbox s (outbox (run Date_parse rs sv)) = inbox s (outbox sv).
Proof.
  revert sv. induction rs as [|r rs IH]; intros sv Hs Hrs; [done|].
  apply Forall_cons in Hrs as [Hr Hrs].
  destruct (handle_unconnected Date_parse r sv s Hs Hr) as [Hs' Hin].
  simpl. fold (run Date_parse rs (handle Date_parse r sv)).
  by rewrite IH.
Qed.

(** In the scenario: session 2 leaves; then session 1 adds an event and
    a third session connects. *)
Lemma unconnected_session_hears_nothing_witness :
  let left := handle scenario_parse (Disconnect 2) scenario in
  inbox 2 (outbox (run scenario_parse [Add_event 1 (PObject alice); Connection 3] left))
  = inbox 2 (outbox left).
Proof.
  apply (unconnected_session_hears_nothing scenario_parse
           [Add_event 1 (PObject alice); Connection 3]
           (handle scenario_parse (Disconnect 2) scenario) 2%nat).
  - vm_compute. intros H. discriminate H.
  - repeat constructor; discriminate.
Defined.

(** X12.  A session that connects hears the snapshot first and every
    broadcast after it: when its fetch is served and then an [add_event]
    of anybody is served with a fresh id and its re-fetch too, the new
    messages in its inbox are the [initial_events] with the list as it
    was, then the [events_updated] with the list that has the new event. *)
Theorem connected_session_hears_snapshot_then_update
    (Date_parse : string → option Z) (s other : nat) (o : Fields) (sv : Server)
    (a autoId c : string) (rest : list Reply) :
  wf_store (store sv) →
  oracle sv = Served a :: Served autoId :: Served c :: rest →
  store sv !! autoId = None →
  inbox s (outbox (run Date_parse [Connection s; Add_event other (PObject o)] sv))
  = inbox s (outbox sv)
    ++ [initial_events (eventOf <$> orderByStart (store sv));
        events_updated
          (eventOf <$> orderByStart (<[autoId := eventData Date_parse o]> (store sv)))].
Proof.
  intros Hwf Horc Hfresh. destruct sv as [st ss ob co orc]; simpl in *; subst orc.
  unfold handle at 2. unfold handler, on_connection, orderBy_start_get.
  unfold_store. unfold_monad. simpl.
  rewrite mapM_snapshotEvent_wf by by apply orderByStart_wf. simpl.
  unfold handle, handler. rewrite on_add_event_served by done.
  rewrite broadcastEvents_wf by (simpl; apply wf_store_insert; [done|apply eventData_wf]).
  simpl. rewrite !inbox_snoc. simpl.
  rewrite !decide_True; [|set_solver|done]. by rewrite <- app_assoc.
Qed.

(** In the scenario: a third session connects, then session 1 adds. *)
Lemma connected_session_hears_snapshot_then_update_witness :
  inbox 3 (outbox (run scenario_parse [Connection 3; Add_event 1 (PObject alice)] scenario))
  = inbox 3 (outbox scenario)
    ++ [initial_events (eventOf <$> orderByStart (store scenario));
        events_updated
          (eventOf <$> orderByStart (<["ev3" := eventData scenario_parse alice]> (store scenario)))].
Proof.
  apply (connected_session_hears_snapshot_then_update scenario_parse 3%nat 1%nat alice scenario
           "ev2" "ev3" "ev4" []).
  - exact scenario_wf.
  - reflexivity.
  - reflexivity.
Defined.

(** ** The earlier revision against the final one *)

Section RevisionEquations.

Variable Date_parse : string → option Z.

Lemma on_update_event_rev1_served o ref old st ss ob co a rest :
  prop o "id" = JStr ref → ref ≠ "" → st !! ref = Some old →
  on_update_event_rev1 Date_parse (PObject o) (mkServer st ss ob co (Served a :: rest)) =
  broadcastEvents
    (mkServer (<[ref := eventData_rev1 Date_parse (delete "id" o) ∪ old]> st) ss ob
       (co ++ [Info "Event updated with ID:"]) rest).
Proof.
  intros Hid Hne Hold. unfold on_update_event_rev1. unfold_store. unfold_monad. simpl.
  rewrite Hid, decide_False by done. simpl. rewrite Hold.
  by through_broadcast.
Qed.

(** The final document is the earlier one with [notes] added. *)
Lemma eventData_rev1_final o :
  eventData Date_parse o =
  <["notes" := js_or (prop o "notes") (JStr "")]> (eventData_rev1 Date_parse o).
Proof.
  apply map_eq. intros k. unfold eventData, eventData_rev1.
  destruct (decide (k = "notes")) as [->|?]; [done|].
  destruct (decide (k = "title")) as [->|?]; [done|].
  destruct (decide (k = "start")) as [->|?]; [done|].
  destruct (decide (k = "end")) as [->|?]; [done|].
  destruct (decide (k = "isTentative")) as [->|?]; [done|].
  rewrite !lookup_insert_ne by done. by rewrite !lookup_singleton_ne.
Qed.

End RevisionEquations.

(** X13.  The two revisions of [update_event], served on the same
    existing document with the same payload: the earlier one leaves the
    document's [notes] as they are, the final one overwrites them; on
    every other field the two stored documents agree. *)
Theorem update_event_revisions_differ_in_notes
    (Date_parse : string → option Z) (sv : Server) (o old : Fields)
    (ref a : string) (rest : list Reply) :
  prop o "id" = JStr ref →
  ref ≠ "" →
  store sv !! ref = Some old →
  oracle sv = Served a :: rest →
  ∃ doc1 doc2,
    store (on_update_event_rev1 Date_parse (PObject o) sv).2 !! ref = Some doc1
    ∧ store (on_update_event Date_parse (PObject o) sv).2 !! ref = Some doc2
    ∧ doc1 !! "notes" = old !! "notes"
    ∧ doc2 !! "notes" = Some (js_or (prop o "notes") (JStr ""))
    ∧ ∀ k, k ≠ "notes" → doc1 !! k = doc2 !! k.
Proof.
  intros Hid Hne Hold Horc. destruct sv as [st ss ob co orc]; simpl in *; subst orc.
  rewrite (on_update_event_rev1_served _ _ _ _ _ _ _ _ _ _ Hid Hne Hold).
  rewrite (on_update_event_served _ _ _ _ _ _ _ _ _ _ Hid Hne Hold).
  do 2 match goal with |- context [broadcastEvents ?s] =>
    let E := fresh "E" in let Hst := fresh "Hst" in
    destruct (broadcastEvents_frame s) as (? & E & Hst & _); rewrite E; simpl in Hst |- *;
    rewrite Hst; clear E Hst end.
  rewrite !lookup_insert_eq. do 2 eexists. split; [done|]. split; [done|].
  rewrite eventData_rev1_final. split; [|split].
  - by rewrite lookup_union_r.
  - erewrite lookup_union_Some_l; [|apply lookup_insert_eq].
    unfold prop. by rewrite lookup_delete_ne.
  - intros k Hk. rewrite !lookup_union. by rewrite lookup_insert_ne.
Qed.

(** In the scenario: the rename, under both revisions. *)
Lemma update_event_revisions_differ_in_notes_witness :
  ∃ doc1 doc2,
    store (on_update_event_rev1 scenario_parse (PObject alice_b) scenario).2 !! "ev1" = Some doc1
    ∧ store (on_update_event scenario_parse (PObject alice_b) scenario).2 !! "ev1" = Some doc2
    ∧ doc1 !! "notes" = alice_doc !! "notes"
    ∧ doc2 !! "notes" = Some (js_or (prop alice_b "notes") (JStr ""))
    ∧ ∀ k, k ≠ "notes" → doc1 !! k = doc2 !! k.
Proof.
  apply (update_event_revisions_differ_in_notes scenario_parse scenario alice_b alice_doc
           "ev1" "ev2" [Served "ev3"; Served "ev4"]).
  - reflexivity.
  - discriminate.
  - reflexivity.
  - reflexivity.
Defined.

(** ** The view model *)

Section AppProperties.

Variable Date_parse : string → option Z.
Variable moment_format : JsValue → string.

Lemma session_app actions1 actions2 app :
  session Date_parse moment_format (actions1 ++ actions2) app =
  let '(app1, sent1) := session Date_parse moment_format actions1 app in
  let '(app2, sent2) := session Date_parse moment_format actions2 app1 in
  (app2, sent1 ++ sent2).
Proof.
  revert app. induction actions1 as [|a actions1 IH]; intros app; simpl.
  - by destruct (session Date_parse moment_format actions2 app).
  - destruct (act Date_parse moment_format a app) as [app1 sent1].
    rewrite IH.
    destruct (session Date_parse moment_format actions1 app1) as [app2 sent2].
    destruct (session Date_parse moment_format actions2 app2) as [app3 sent3].
    by rewrite app_assoc.
Qed.

Lemma act_modals a app :
  modals_have_data app → modals_have_data (act Date_parse moment_format a app).1.
Proof.
  intros [Hadd Hedit]. destruct app as [l sa se slot ev t tent st en]; simpl in *.
  destruct a as [s e|event|v|c|v|v| | |now| |confirm|m];
    unfold modals_have_data; simpl; try (split; by eauto).
  - unfold handleAddEvent. simpl. destruct slot as [[s e]|]; [|by split].
    destruct (truthy t); simpl; by split.
  - unfold handleUpdateEvent. simpl. destruct ev as [event|]; [|by split].
    destruct (truthy t && negb (String.eqb st "") && negb (String.eqb en "")); by split.
  - unfold handleDeleteEvent. simpl. destruct ev as [event|]; [|by split].
    destruct confirm; by split.
  - destruct m; by split.
Qed.

End AppProperties.

(** X14.  A modal that is open has what it renders: through every
    sequence of clicks, keystrokes and server messages, an open add modal
    has a selected slot and an open edit modal a selected event. *)
Theorem modals_always_have_data
    (Date_parse : string → option Z) (moment_format : JsValue → string)
    (actions : list Action) (app : App) :
  modals_have_data app →
  modals_have_data (session Date_parse moment_format actions app).1.
Proof.
  revert app. induction actions as [|a actions IH]; intros app Hinv; [done|].
  simpl. pose proof (act_modals Date_parse moment_format a app Hinv) as H1.
  destruct (act Date_parse moment_format a app) as [app1 sent1].
  specialize (IH app1 H1).
  by destruct (session Date_parse moment_format actions app1) as [app2 sent2].
Qed.

(** In a fresh component: a slot is chosen, the add is tried without a
    title, the modal closed; an event is clicked and its delete declined. *)
Lemma modals_always_have_data_witness :
  modals_have_data
    (session scenario_parse scenario_format
       [SelectSlot (ValidDate 1704103200000) (ValidDate 1704106800000);
        AddTime 1704100000000; CloseAddModal;
        SelectEvent alice_shown; DeleteTime false]
       initialApp).1.
Proof.
  apply (modals_always_have_data scenario_parse scenario_format
           [SelectSlot (ValidDate 1704103200000) (ValidDate 1704106800000);
            AddTime 1704100000000; CloseAddModal;
            SelectEvent alice_shown; DeleteTime false]
           initialApp).
  split; discriminate.
Defined.

Section AppList.

Variable Date_parse : string → option Z.
Variable moment_format : JsValue → string.

Lemma act_events a app :
  ¬ is_receive a → events (act Date_parse moment_format a app).1 = events app.
Proof.
  intros Ha. destruct a as [s e|event|v|c|v|v| | |now| |confirm|m]; simpl; try done.
  - unfold handleAddEvent. destruct (selectedSlot app) as [[s e]|]; [|done].
    by destruct (truthy (eventTitle app)).
  - unfold handleUpdateEvent. destruct (selectedEvent app) as [event|]; [|done].
    by destruct (truthy (eventTitle app) && _ && _).
  - unfold handleDeleteEvent. destruct (selectedEvent app) as [event|]; [|done].
    by destruct confirm.
Qed.

(** A message changes the list and nothing else; what it makes of the
    list does not depend on the rest of the state. *)
Lemma act_receive_events m app1 app2 :
  events app1 = events app2 →
  events (act Date_parse moment_format (Receive m) app1).1 =
  events (act Date_parse moment_format (Receive m) app2).1.
Proof. intros H. destruct m; simpl; by rewrite ?H. Qed.

Lemma session_events_congruence actions app1 app2 :
  events app1 = events app2 →
  Forall is_receive actions →
  events (session Date_parse moment_format actions app1).1 =
  events (session Date_parse moment_format actions app2).1.
Proof.
  revert app1 app2. induction actions as [|a actions IH]; intros app1 app2 H Hall; [done|].
  apply Forall_cons in Hall as [Ha Hall]. destruct a as [| | | | | | | | | | |m]; try done.
  simpl. specialize (IH (on_message Date_parse m app1) (on_message Date_parse m app2)).
  destruct (session Date_parse moment_format actions (on_message Date_parse m app1)).
  destruct (session Date_parse moment_format actions (on_message Date_parse m app2)).
  apply IH; [|done]. by apply (act_receive_events m).
Qed.

End AppList.

(** X15.  The component never edits its list on its own: after any
    session, the list of events is what the server's messages alone would
    have made of it; the clicks and keystrokes in between do not count,
    and the server's messages send nothing back. *)
Theorem events_come_from_the_server_only
    (Date_parse : string → option Z) (moment_format : JsValue → string)
    (actions : list Action) (app : App) :
  events (session Date_parse moment_format actions app).1 =
  events (session Date_parse moment_format (filter is_receive actions) app).1
  ∧ (session Date_parse moment_format (filter is_receive actions) app).2 = [].
Proof.
  split.
  - revert app. induction actions as [|a actions IH]; intros app; [done|].
    rewrite filter_cons. case_decide as Ha.
    + simpl. destruct (act Date_parse moment_format a app) as [app1 sent1].
      specialize (IH app1).
      destruct (session Date_parse moment_format actions app1).
      by destruct (session Date_parse moment_format (filter is_receive actions) app1).
    + simpl. pose proof (act_events Date_parse moment_format a app Ha) as He.
      destruct (act Date_parse moment_format a app) as [app1 sent1]. simpl in He.
      specialize (IH app1).
      destruct (session Date_parse moment_format actions app1). simpl in *.
      rewrite IH. apply session_events_congruence; [done|].
      apply Forall_forall. by intros x [? _]%list_elem_of_filter.
  - revert app. induction actions as [|a actions IH]; intros app; [done|].
    rewrite filter_cons. case_decide as Ha; [|done].
    destruct a as [| | | | | | | | | | |m]; try done. simpl.
    specialize (IH (on_message Date_parse m app)).
    by destruct (session Date_parse moment_format (filter is_receive actions) _).
Qed.

Lemma session_without_list Date_parse moment_format later app :
  Forall (λ a, ¬ is_list_message a) later →
  events (session Date_parse moment_format later app).1 =
  events app ++ (parseEvent Date_parse <$> new_events later).
Proof.
  revert app. induction later as [|a later IH]; intros app Hall.
  - simpl. by rewrite app_nil_r.
  - apply Forall_cons in Hall as [Ha Hall]. simpl.
    destruct (decide (is_receive a)) as [Hr|Hr].
    + destruct a as [| | | | | | | | | | |m]; try done.
      destruct m as [l|e|l]; [by destruct Ha| |by destruct Ha]. simpl.
      specialize (IH (on_message Date_parse (new_event e) app) Hall).
      destruct (session Date_parse moment_format later _). simpl in *.
      unfold new_events in *. simpl. rewrite IH. simpl. by rewrite <- app_assoc.
    + pose proof (act_events Date_parse moment_format a app Hr) as He.
      destruct (act Date_parse moment_format a app) as [app1 sent1]. simpl in He.
      specialize (IH app1 Hall).
      destruct (session Date_parse moment_format later app1). simpl in *.
      rewrite IH, He. f_equal. unfold new_events.
      by destruct a as [| | | | | | | | | | |m].
Qed.

(** X16.  What the component shows is the last list it was sent: after
    an [initial_events] or [events_updated] with the list [l], whatever
    came before is forgotten, and until the next list the events are
    those of [l], each with [start] and [end] parsed, followed by the
    events of any [new_event] messages that came since, in order. *)
Theorem view_is_last_list
    (Date_parse : string → option Z) (moment_format : JsValue → string)
    (earlier later : list Action) (m : Msg) (l : list Fields) (app : App) :
  m = initial_events l ∨ m = events_updated l →
  Forall (λ a, ¬ is_list_message a) later →
  events (session Date_parse moment_format (earlier ++ Receive m :: later) app).1
  = (parseEvent Date_parse <$> l) ++ (parseEvent Date_parse <$> new_events later).
Proof.
  intros Hm Hlater. rewrite session_app.
  destruct (session Date_parse moment_format earlier app) as [app1 sent1]. simpl.
  pose proof (session_without_list Date_parse moment_format later
                (on_message Date_parse m app1) Hlater) as H.
  destruct (session Date_parse moment_format later (on_message Date_parse m app1)).
  simpl in *. rewrite H. by destruct Hm as [-> | ->].
Qed.

(** A first list, a click, the list again after somebody's change. *)
Lemma view_is_last_list_witness :
  events (session scenario_parse scenario_format
            ([Receive (initial_events []); SelectEvent alice_shown]
             ++ Receive (events_updated [alice_shown]) :: [CloseEditModal])
            initialApp).1
  = (parseEvent scenario_parse <$> [alice_shown])
    ++ (parseEvent scenario_parse <$> new_events [CloseEditModal]).
Proof.
  apply (view_is_last_list scenario_parse scenario_format
           [Receive (initial_events []); SelectEvent alice_shown] [CloseEditModal]
           (events_updated [alice_shown]) [alice_shown] initialApp).
  - right; reflexivity.
  - repeat constructor. intros H; exact H.
Defined.

(** The payload of [handleAddEvent], field by field. *)
Lemma newEvent_fields (vid vstart vend vtitle vtent : JsValue) :
  <["isTentative" := vtent]>
    (<["title" := vtitle]> (<["end" := vend]> (<["start" := vstart]> {[ "id" := vid ]})))
  = ({[ "id" := vid; "start" := vstart; "end" := vend;
        "title" := vtitle; "isTentative" := vtent ]} : Fields).
Proof.
  apply map_eq. intros k.
  destruct (decide (k = "id")) as [->|?]; [done|].
  destruct (decide (k = "start")) as [->|?]; [done|].
  destruct (decide (k = "end")) as [->|?]; [done|].
  destruct (decide (k = "title")) as [->|?]; [done|].
  destruct (decide (k = "isTentative")) as [->|?]; [done|].
  rewrite !lookup_insert_ne by done. by rewrite !lookup_singleton_ne.
Qed.

(** X17.  Adding through the form: from any state, choosing a slot,
    typing a title, setting the checkbox and pressing Add Time sends one
    [add_event] whose payload is the id made of the clock, the slot's
    [start] and [end], the title and the checkbox, and nothing else (no
    [notes]); the modal closes and the form is cleared.  With an empty
    title the button does nothing: nothing is sent and the modal stays. *)
Theorem add_time_sends_the_form
    (Date_parse : string → option Z) (moment_format : JsValue → string)
    (app : App) (start end_ : JsDate) (title : string) (tentative : bool) (now : Z) :
  let result := session Date_parse moment_format
                  [SelectSlot start end_; ChangeTitle title; ChangeTentative tentative;
                   AddTime now] app in
  if decide (title = "") then
    result.2 = []
    ∧ showAddModal result.1 = true
    ∧ selectedSlot result.1 = Some (start, end_)
  else
    result.2 = [emit_add_event
                  {[ "id" := JStr (pretty now); "start" := JDate start; "end" := JDate end_;
                     "title" := JStr title; "isTentative" := JBool tentative ]}]
    ∧ showAddModal result.1 = false
    ∧ selectedSlot result.1 = None
    ∧ eventTitle result.1 = JStr ""
    ∧ isTentative result.1 = JBool false
    ∧ events result.1 = events app.
Proof.
  simpl. unfold handleAddEvent. simpl. case_decide as Ht.
  - subst. by simpl.
  - apply String.eqb_neq in Ht. rewrite Ht. simpl.
    by rewrite newEvent_fields.
Qed.

(** X18.  Editing through the form: from any state, clicking an event,
    typing a new title and pressing Update Time sends one [update_event]
    whose payload is the clicked event with [title], [isTentative],
    [start] and [end] replaced: every other property ([id], [notes])
    is the event's own.  The new [start] and [end] are what the two
    inputs, filled from the event, parse to. *)
Theorem update_time_keeps_identity
    (Date_parse : string → option Z) (moment_format : JsValue → string)
    (app : App) (event : Fields) (title : string) :
  title ≠ "" →
  moment_format (prop event "start") ≠ "" →
  moment_format (prop event "end") ≠ "" →
  ∃ payload,
    (session Date_parse moment_format [SelectEvent event; ChangeTitle title; UpdateTime] app).2
      = [emit_update_event payload]
    ∧ payload !! "title" = Some (JStr title)
    ∧ payload !! "isTentative" = Some (js_or (prop event "isTentative") (JBool false))
    ∧ payload !! "start" =
        Some (JDate (newDate Date_parse (JStr (moment_format (prop event "start")))))
    ∧ payload !! "end" =
        Some (JDate (newDate Date_parse (JStr (moment_format (prop event "end")))))
    ∧ ∀ k, k ∉ ["title"; "isTentative"; "start"; "end"] → payload !! k = event !! k.
Proof.
  intros Ht Hs He. simpl. unfold handleUpdateEvent. simpl.
  apply String.eqb_neq in Ht, Hs, He. rewrite Ht, Hs, He. simpl.
  eexists. split; [done|].
  split; [by rewrite !lookup_insert_ne, lookup_insert_eq by done|].
  split; [by rewrite !lookup_insert_ne, lookup_insert_eq by done|].
  split; [by rewrite !lookup_insert_ne, lookup_insert_eq by done|].
  split; [by rewrite lookup_insert_eq|].
  intros k Hk. rewrite !elem_of_cons, elem_of_nil in Hk.
  rewrite !lookup_insert_ne; [done|..]; intros <-; tauto.
Qed.

(** The stored event of the scenario, clicked and renamed. *)
Lemma update_time_keeps_identity_witness :
  ∃ payload,
    (session scenario_parse scenario_format
       [SelectEvent alice_shown; ChangeTitle "Alice B"; UpdateTime] initialApp).2
      = [emit_update_event payload]
    ∧ payload !! "title" = Some (JStr "Alice B")
    ∧ payload !! "id" = Some (JStr "ev1")
    ∧ payload !! "notes" = Some (JStr "")
    ∧ payload !! "start" = Some (JDate (ValidDate 1704103200000)).
Proof.
  destruct (update_time_keeps_identity scenario_parse scenario_format initialApp
              alice_shown "Alice B")
    as (payload & Hsent & Ht & _ & Hs & _ & Hrest).
  - discriminate.
  - discriminate.
  - discriminate.
  - exists payload. split; [exact Hsent|]. split; [exact Ht|].
    split; [|split; [|exact Hs]].
    + rewrite (Hrest "id"); [reflexivity|].
      rewrite !elem_of_cons, elem_of_nil.
      intros [H|[H|[H|[H|[]]]]]; discriminate H.
    + rewrite (Hrest "notes"); [reflexivity|].
      rewrite !elem_of_cons, elem_of_nil.
      intros [H|[H|[H|[H|[]]]]]; discriminate H.
Defined.

Lemma act_selected Date_parse moment_format a app (clicked : Fields → Prop) :
  (∀ ev, selectedEvent app = Some ev → clicked ev) →
  (∀ ev, selectedEvent (act Date_parse moment_format a app).1 = Some ev →
         clicked ev ∨ a = SelectEvent ev)
  ∧ ∀ id, emit_delete_event id ∈ (act Date_parse moment_format a app).2 →
          a = DeleteTime true ∧ ∃ ev, clicked ev ∧ id = prop ev "id".
Proof.
  intros Hsel. destruct app as [l sa se slot sel t tent st en]; simpl in *.
  destruct a as [s e|event|v|c|v|v| | |now| |confirm|m]; simpl;
    try (split; [by auto|by intros id H; apply elem_of_nil in H]).
  - split; [|by intros id H; apply elem_of_nil in H].
    intros ev [= <-]. by right.
  - unfold handleAddEvent; simpl. destruct slot as [[s e]|]; [destruct (truthy t)|]; simpl.
    all: split; [by auto|]; intros id H.
    2, 3: by apply elem_of_nil in H.
    apply list_elem_of_singleton in H. discriminate H.
  - unfold handleUpdateEvent; simpl.
    destruct sel as [event|];
      [destruct (truthy t && negb (String.eqb st "") && negb (String.eqb en ""))|]; simpl.
    all: split; [by auto|]; intros id H.
    2, 3: by apply elem_of_nil in H.
    apply list_elem_of_singleton in H. discriminate H.
  - unfold handleDeleteEvent; simpl.
    destruct sel as [event|]; [destruct confirm|]; simpl.
    all: split; [by auto|]; intros id H.
    2, 3: by apply elem_of_nil in H.
    apply list_elem_of_singleton in H. injection H as ->. eauto.
  - destruct m; simpl; (split; [by auto|by intros id H; apply elem_of_nil in H]).
Qed.

Lemma session_deletes Date_parse moment_format actions app (clicked : Fields → Prop) id :
  (∀ ev, selectedEvent app = Some ev → clicked ev) →
  emit_delete_event id ∈ (session Date_parse moment_format actions app).2 →
  DeleteTime true ∈ actions
  ∧ ∃ ev, (clicked ev ∨ SelectEvent ev ∈ actions) ∧ id = prop ev "id".
Proof.
  revert app clicked. induction actions as [|a actions IH]; intros app clicked Hsel Hin.
  - by apply elem_of_nil in Hin.
  - simpl in Hin.
    destruct (act_selected Date_parse moment_format a app clicked Hsel) as [Hsel1 Hdel1].
    destruct (act Date_parse moment_format a app) as [app1 sent1]. simpl in *.
    specialize (IH app1 (λ ev, clicked ev ∨ a = SelectEvent ev) Hsel1).
    destruct (session Date_parse moment_format actions app1) as [app2 sent2]. simpl in *.
    apply elem_of_app in Hin as [Hin|Hin].
    + destruct (Hdel1 id Hin) as (-> & ev & Hev & ->).
      split; [apply list_elem_of_here|]. exists ev. by auto.
    + destruct (IH Hin) as (Hconf & ev & Hev & ->).
      split; [by apply list_elem_of_further|]. exists ev. split; [|done].
      destruct Hev as [[Hc| ->]|Hev].
      * by left.
      * right. apply list_elem_of_here.
      * right. by apply list_elem_of_further.
Qed.

(** X19.  No delete without a click and a confirmation: in a session
    that starts with nothing selected, every [delete_event] the component
    sends carries the [id] of an event the user clicked in that session,
    and the user has confirmed a delete. *)
Theorem delete_only_after_confirmed_click
    (Date_parse : string → option Z) (moment_format : JsValue → string)
    (actions : list Action) (app : App) (id : JsValue) :
  selectedEvent app = None →
  emit_delete_event id ∈ (session Date_parse moment_format actions app).2 →
  DeleteTime true ∈ actions
  ∧ ∃ ev, SelectEvent ev ∈ actions ∧ id = prop ev "id".
Proof.
  intros Hnone Hin.
  destruct (session_deletes Date_parse moment_format actions app (λ _, False) id)
    as (Hconf & ev & [[]|Hev] & ->); [by rewrite Hnone|done|].
  split; [done|]. by exists ev.
Qed.

(** A fresh component: Alice's event is clicked, the delete declined,
    then pressed again and confirmed. *)
Lemma delete_only_after_confirmed_click_witness :
  DeleteTime true ∈ [SelectEvent alice_shown; DeleteTime false; DeleteTime true]
  ∧ ∃ ev, SelectEvent ev ∈ [SelectEvent alice_shown; DeleteTime false; DeleteTime true]
          ∧ JStr "ev1" = prop ev "id".
Proof.
  apply (delete_only_after_confirmed_click scenario_parse scenario_format
           [SelectEvent alice_shown; DeleteTime false; DeleteTime true] initialApp
           (JStr "ev1")).
  - reflexivity.
  - apply list_elem_of_here.
Defined.

(** ** Across the wire *)

Section WireProperties.

Variable Date_parse : string → option Z.
Variable toISOString : Z → string.

Lemma prop_wire o k :
  prop (wire toISOString o) k = default JUndefined (o !! k ≫= toJSON toISOString).
Proof. unfold prop, wire. by rewrite lookup_omap. Qed.

(** A date that round-trips is read back by [new Date] on the far side. *)
Lemma newDate_wire_date o k t :
  o !! k = Some (JDate (ValidDate t)) →
  date_round_trips Date_parse toISOString t →
  newDate Date_parse (prop (wire toISOString o) k) = ValidDate t.
Proof.
  intros Hk [Hrange Hparse]. rewrite prop_wire, Hk. simpl. rewrite Hparse.
  unfold timeClip. by rewrite (proj2 (Z.leb_le _ _)).
Qed.

Lemma parseEvent_wire doc :
  survives_wire Date_parse toISOString doc →
  parseEvent Date_parse (wire toISOString doc) = doc.
Proof.
  intros ((s & Hs & Hsr) & (e & He & Her) & Hrest).
  apply map_eq. intros k. unfold parseEvent.
  destruct (decide (k = "end")) as [->|Hne].
  { rewrite lookup_insert_eq. by rewrite (newDate_wire_date _ _ _ He Her). }
  rewrite lookup_insert_ne by done.
  destruct (decide (k = "start")) as [->|Hns].
  { rewrite lookup_insert_eq. by rewrite (newDate_wire_date _ _ _ Hs Hsr). }
  rewrite lookup_insert_ne by done.
  unfold wire. rewrite lookup_omap.
  destruct (doc !! k) as [v|] eqn:Hk; [|done]. simpl. by apply (Hrest k).
Qed.

Lemma survives_wire_eventOf id doc :
  survives_wire Date_parse toISOString doc →
  survives_wire Date_parse toISOString (eventOf (id, doc)).
Proof.
  intros ((s & Hs & Hsr) & (e & He & Her) & Hrest). unfold eventOf. simpl.
  split; [|split].
  - exists s. by rewrite lookup_insert_ne.
  - exists e. by rewrite lookup_insert_ne.
  - intros k v. rewrite lookup_insert. case_decide; [by intros [= <-]|].
    apply Hrest.
Qed.

End WireProperties.

(** X20.  What is stored is what is shown.  Over a store whose documents
    survive the wire, when the fetch of [broadcastEvents] is served, the
    one message it emits goes to all sessions, and a component that
    receives its list over the wire shows exactly the documents of the
    store, each with its id, ordered by [start], with [start] and [end]
    as the dates that are stored. *)
Theorem stored_events_are_shown
    (Date_parse : string → option Z) (toISOString : Z → string)
    (sv : Server) (app : App) (a : string) (rest : list Reply) :
  wf_store (store sv) →
  (∀ id doc, store sv !! id = Some doc → survives_wire Date_parse toISOString doc) →
  oracle sv = Served a :: rest →
  ∃ shown,
    outbox (broadcastEvents sv).2 = outbox sv ++ [IoEmit (sessions sv) (events_updated shown)]
    ∧ ordered_content (store sv) shown
    ∧ events (on_message Date_parse (events_updated (wire toISOString <$> shown)) app) = shown.
Proof.
  intros Hwf Hwire Horc. rewrite broadcastEvents_wf by done. rewrite Horc. simpl.
  eexists. split; [done|]. split; [by apply ordered_content_orderByStart|].
  rewrite <- !list_fmap_compose. apply Forall_fmap_ext_1, Forall_forall.
  intros [id doc] Hin. simpl.
  apply elem_of_orderByStart in Hin as [Hin _].
  apply parseEvent_wire, survives_wire_eventOf. by eapply Hwire.
Qed.

Lemma scenario_date_round_trips (t : Z) :
  t = 1704103200000 ∨ t = 1704106800000 →
  date_round_trips scenario_parse scenario_iso t.
Proof. intros [-> | ->]; split; [discriminate|reflexivity|discriminate|reflexivity]. Defined.

Lemma alice_doc_survives_wire : survives_wire scenario_parse scenario_iso alice_doc.
Proof.
  split; [|split].
  - exists 1704103200000. split; [reflexivity|]. apply scenario_date_round_trips. by left.
  - exists 1704106800000. split; [reflexivity|]. apply scenario_date_round_trips. by right.
  - intros k v Hk Hs He.
    destruct (decide (k = "title")) as [->|?]; [by injection Hk as <-|].
    destruct (decide (k = "isTentative")) as [->|?]; [by injection Hk as <-|].
    destruct (decide (k = "notes")) as [->|?]; [by injection Hk as <-|].
    unfold alice_doc, eventData in Hk.
    rewrite !lookup_insert_ne in Hk by done. by rewrite lookup_singleton_ne in Hk.
Defined.

(** In the scenario, with the store serving the fetch. *)
Lemma stored_events_are_shown_witness :
  ∃ shown,
    outbox (broadcastEvents scenario).2
      = outbox scenario ++ [IoEmit (sessions scenario) (events_updated shown)]
    ∧ ordered_content (store scenario) shown
    ∧ events (on_message scenario_parse (events_updated (wire scenario_iso <$> shown))
                initialApp) = shown.
Proof.
  apply (stored_events_are_shown scenario_parse scenario_iso scenario initialApp
           "ev2" [Served "ev3"; Served "ev4"]).
  - exact scenario_wf.
  - intros id doc H. unfold scenario in H; cbn [store] in H.
    apply lookup_singleton_Some in H as [_ <-]. exact alice_doc_survives_wire.
  - reflexivity.
Defined.

(** X21.  What is typed is what is stored.  When the user chooses a slot
    whose two dates round-trip, types a title, sets the checkbox and
    presses Add Time, and the payload crosses the wire to a server whose
    store serves the [add] with a fresh id, the new document holds the
    title as typed, the slot's dates, the checkbox, and empty notes. *)
Theorem typed_event_is_stored
    (Date_parse : string → option Z) (moment_format : JsValue → string)
    (toISOString : Z → string)
    (app : App) (s e now : Z) (title : string) (tentative : bool)
    (sv : Server) (socket : nat) (autoId : string) (rest : list Reply) :
  title ≠ "" →
  date_round_trips Date_parse toISOString s →
  date_round_trips Date_parse toISOString e →
  oracle sv = Served autoId :: rest →
  store sv !! autoId = None →
  ∃ payload,
    (session Date_parse moment_format
       [SelectSlot (ValidDate s) (ValidDate e); ChangeTitle title;
        ChangeTentative tentative; AddTime now] app).2 = [emit_add_event payload]
    ∧ store (handle Date_parse (Add_event socket (PObject (wire toISOString payload))) sv)
      = <[autoId := {[ "title" := JStr title;
                       "start" := JDate (ValidDate s);
                       "end" := JDate (ValidDate e);
                       "isTentative" := JBool tentative;
                       "notes" := JStr "" ]}]> (store sv).
Proof.
  intros Ht Hs He Horc Hfresh. simpl. unfold handleAddEvent. simpl.
  apply String.eqb_neq in Ht. rewrite Ht. simpl. eexists. split; [done|].
  destruct sv as [st ss ob co orc]; simpl in *; subst orc.
  unfold handle, handler. rewrite on_add_event_served by done.
  match goal with |- context [broadcastEvents ?x] =>
    destruct (broadcastEvents_frame x) as (sv1 & E & Hst & _) end.
  rewrite E. simpl in *. rewrite Hst. f_equal.
  unfold eventData.
  rewrite (newDate_wire_date Date_parse toISOString _ "start" s) by done.
  rewrite (newDate_wire_date Date_parse toISOString _ "end" e) by done.
  rewrite !prop_wire. simpl. by destruct tentative.
Qed.

(** The scenario's slot, typed as Alice, sent to the scenario's server. *)
Lemma typed_event_is_stored_witness :
  ∃ payload,
    (session scenario_parse scenario_format
       [SelectSlot (ValidDate 1704103200000) (ValidDate 1704106800000); ChangeTitle "Alice";
        ChangeTentative false; AddTime 1704100000000] initialApp).2 = [emit_add_event payload]
    ∧ store (handle scenario_parse (Add_event 1 (PObject (wire scenario_iso payload))) scenario)
      = <["ev2" := {[ "title" := JStr "Alice";
                      "start" := JDate (ValidDate 1704103200000);
                      "end" := JDate (ValidDate 1704106800000);
                      "isTentative" := JBool false;
                      "notes" := JStr "" ]}]> (store scenario).
Proof.
  apply (typed_event_is_stored scenario_parse scenario_format scenario_iso initialApp
           1704103200000 1704106800000 1704100000000 "Alice" false scenario 1%nat "ev2"
           [Served "ev3"; Served "ev4"]).
  - discriminate.
  - apply scenario_date_round_trips. left; reflexivity.
  - apply scenario_date_round_trips. right; reflexivity.
  - reflexivity.
  - reflexivity.
Defined.




(** X23.  An edit through the form keeps the notes.  When the user
    clicks an event that carries [notes] and the id of a stored document,
    types a new title and presses Update Time, and the payload crosses
    the wire to a server whose store serves the [update], the document
    has the new title and the notes the event had. *)
Theorem edit_keeps_notes_on_the_server
    (Date_parse : string → option Z) (moment_format : JsValue → string)
    (toISOString : Z → string)
    (app : App) (event old : Fields) (title notes ref a : string)
    (sv : Server) (socket : nat) (rest : list Reply) :
  title ≠ "" →
  moment_format (prop event "start") ≠ "" →
  moment_format (prop event "end") ≠ "" →
  event !! "id" = Some (JStr ref) →
  event !! "notes" = Some (JStr notes) →
  ref ≠ "" →
  store sv !! ref = Some old →
  oracle sv = Served a :: rest →
  ∃ payload doc,
    (session Date_parse moment_format [SelectEvent event; ChangeTitle title; UpdateTime] app).2
      = [emit_update_event payload]
    ∧ store (handle Date_parse (Update_event socket (PObject (wire toISOString payload))) sv)
        !! ref = Some doc
    ∧ doc !! "title" = Some (JStr title)
    ∧ doc !! "notes" = Some (JStr notes).
Proof.
  intros Ht Hs He Hid Hnotes Hne Hold Horc. simpl. unfold handleUpdateEvent. simpl.
  apply String.eqb_neq in Ht, Hs, He. rewrite Ht, Hs, He. simpl.
  eexists. eexists. split; [done|].
  match goal with |- context [PObject ?p] => set (payload := p) end.
  assert (prop payload "id" = JStr ref) as Hpid.
  { unfold payload, prop, wire. rewrite lookup_omap.
    rewrite !lookup_insert_ne by done. by rewrite Hid. }
  destruct sv as [st ss ob co orc]; simpl in *; subst orc.
  unfold handle, handler.
  rewrite (on_update_event_served _ _ _ _ _ _ _ _ _ _ Hpid Hne Hold).
  match goal with |- context [broadcastEvents ?x] =>
    destruct (broadcastEvents_frame x) as (sv1 & E & Hst & _) end.
  rewrite E. simpl in *. rewrite Hst, lookup_insert_eq.
  split; [done|]. rewrite eventData_delete_id. split.
  - erewrite lookup_union_Some_l; [done|]. rewrite eventData_title. f_equal.
    unfold payload, prop, wire. rewrite lookup_omap.
    rewrite !lookup_insert_ne by done. by rewrite lookup_insert_eq.
  - erewrite lookup_union_Some_l; [done|]. rewrite eventData_notes. f_equal.
    unfold payload, prop, wire. rewrite lookup_omap.
    rewrite !lookup_insert_ne by done. rewrite Hnotes. simpl.
    unfold js_or. simpl. by destruct (String.eqb notes "") eqn:E0;
      [apply String.eqb_eq in E0 as ->|].
Qed.

(** The noted event of the scenario, renamed through the form. *)
Lemma edit_keeps_notes_on_the_server_witness :
  ∃ payload doc,
    (session scenario_parse scenario_format
       [SelectEvent alice_noted; ChangeTitle "Alice B"; UpdateTime] initialApp).2
      = [emit_update_event payload]
    ∧ store (handle scenario_parse (Update_event 2 (PObject (wire scenario_iso payload))) scenario)
        !! "ev1" = Some doc
    ∧ doc !! "title" = Some (JStr "Alice B")
    ∧ doc !! "notes" = Some (JStr "bring slides").
Proof.
  apply (edit_keeps_notes_on_the_server scenario_parse scenario_format scenario_iso initialApp
           alice_noted alice_doc "Alice B" "bring slides" "ev1" "ev2" scenario 2%nat
           [Served "ev3"; Served "ev4"]).
  - discriminate.
  - discriminate.
  - discriminate.
  - reflexivity.
  - reflexivity.
  - discriminate.
  - reflexivity.
  - reflexivity.
Defined.
